(** * bathy_fromSeissol: mesh-to-grid resampling, shallow embedding

    The development embeds the computational core of
    [bathy_fromSeissol.py]: barycentric coordinates, area-weighted node
    values, CRS reprojection of a flattened mesh, point location with the
    epsilon retry, barycentric interpolation, the grid reshape and the
    inscribed-rectangle corner computation.

    Numbers.  float64 values are idealised as exact rationals ([Q], compared
    with [==]); rounding and overflow are not modelled.  A division by zero
    is where Python and numpy differ, and it is modelled as the source
    behaves: the built-in [float] raises [ZeroDivisionError], a numpy
    scalar yields inf or nan, both represented by [NonFinite].  Where a
    statement is about the rounding itself, [getBarycentricCoord] is
    embedded a second time on binary64 numbers (module [F64]).

    External libraries.  trimesh (area_faces, vertex_faces, bounds, the ray
    intersector), pyproj (Transformer.transform) and seissolxdmf (ReadData)
    are not part of the program; they appear as section variables. *)

From Stdlib Require Import QArith Qround Qfield Lqa ZArith Lia Permutation String.
From stdpp Require Import base list.
From Equations Require Import Equations.
From Stdlib Require Import Floats.

Open Scope Q_scope.

(** ** Python exceptions and results *)

Module Py.

(** The exceptions the embedded code can raise, together with the error
    kinds the specification names.  No statement of the source raises
    [DegenerateMeshError] or [PointOutsideMeshError]. *)
Inductive exn : Set :=
| ZeroDivisionError
| IndexError
| ValueError
| DegenerateMeshError
| PointOutsideMeshError.

Inductive result (A : Type) : Type :=
| Ok (a : A)
| Raise (e : exn).
Arguments Ok {A} a.
Arguments Raise {A} e.

Definition bind {A B} (r : result A) (k : A -> result B) : result B :=
  match r with
  | Ok a => k a
  | Raise e => Raise e
  end.

Definition is_ok {A} (r : result A) : bool :=
  match r with Ok _ => true | Raise _ => false end.

(** A Python [for] loop that appends one value per iteration: the first
    exception aborts the loop. *)
Fixpoint for_each {A B} (f : A -> result B) (l : list A) : result (list B) :=
  match l with
  | [] => Ok []
  | a :: l' =>
      bind (f a) (fun b => bind (for_each f l') (fun bs => Ok (b :: bs)))
  end.

(** A Python [for] loop that updates local variables: the state is the
    tuple of those variables. *)
Fixpoint for_fold {S A} (f : S -> A -> result S) (l : list A) (s : S)
  : result S :=
  match l with
  | [] => Ok s
  | a :: l' => bind (f s a) (for_fold f l')
  end.

(** [range(0, n)] *)
Definition range (n : nat) : list Z := map Z.of_nat (seq 0 n).

(** Indexing of a sequence or of a numpy array along its first axis:
    a negative index counts from the end, anything outside
    [-len, len) raises [IndexError]. *)
Definition getitem {A} (l : list A) (i : Z) : result A :=
  let n := Z.of_nat (length l) in
  let k := if (i <? 0)%Z then (n + i)%Z else i in
  if ((0 <=? k)%Z && (k <? n)%Z)%bool then
    match l !! Z.to_nat k with
    | Some a => Ok a
    | None => Raise IndexError
    end
  else Raise IndexError.

End Py.

Export Py.

Notation "'let!' x ':=' c1 'in' c2" := (Py.bind c1 (fun x => c2))
  (at level 10, x name, c1 at level 100, c2 at level 200).

(** ** numpy float64 scalars *)

Module Np.

(** A finite value, or one of inf, -inf and nan.  The arrays the program
    reads hold finite values, so a non-finite value can only come out of a
    division by zero, and nothing in the program divides by a computed
    value afterwards: from there on every operation ([1 - x], [x * v],
    [x + y]) yields a non-finite value again, which is why one
    constructor is enough. *)
Inductive float : Set :=
| Fin (q : Q)
| NonFinite.

Definition lift2 (op : Q -> Q -> Q) (x y : float) : float :=
  match x, y with
  | Fin a, Fin b => Fin (op a b)
  | _, _ => NonFinite
  end.

Definition add := lift2 Qplus.
Definition sub := lift2 Qminus.
Definition mul := lift2 Qmult.

(** numpy's true division: a zero divisor gives inf or nan (with a
    warning), never an exception. *)
Definition div (x y : float) : float :=
  match x, y with
  | Fin a, Fin b => if Qeq_bool b 0 then NonFinite else Fin (a / b)
  | _, _ => NonFinite
  end.

(** Equality of values: [==] on the finite ones. *)
Definition eq (x y : float) : Prop :=
  match x, y with
  | Fin a, Fin b => a == b
  | NonFinite, NonFinite => True
  | _, _ => False
  end.

End Np.

Infix "=f=" := Np.eq (at level 70, no associativity).

(** ** Planar vectors *)

Definition vec2 : Type := Q * Q.
Definition vec3 : Type := Q * Q * Q.

Definition vsub (u v : vec2) : vec2 := (fst u - fst v, snd u - snd v).

(** [np.dot] of two arrays of length two. *)
Definition dot (u v : vec2) : Q := fst u * fst v + snd u * snd v.

(** ** getBarycentricCoord *)

Definition getBarycentricCoord (pto vert_a vert_b vert_c : vec2)
  : Np.float * Np.float * Np.float :=
  let ab := vsub vert_b vert_a in
  let ac := vsub vert_c vert_a in
  let ap := vsub pto vert_a in
  let normal_ac := (snd vert_a - snd vert_c, fst vert_c - fst vert_a) in
  let normal_ab := (snd vert_a - snd vert_b, fst vert_b - fst vert_a) in
  let bary_beta := Np.div (Np.Fin (dot ap normal_ac)) (Np.Fin (dot ab normal_ac)) in
  let bary_gamma := Np.div (Np.Fin (dot ap normal_ab)) (Np.Fin (dot ac normal_ab)) in
  let bary_alpha := Np.sub (Np.sub (Np.Fin 1) bary_beta) bary_gamma in
  (bary_alpha, bary_beta, bary_gamma).

(** The same function on float64 numbers, with the operations of IEEE 754
    binary64 in place of the exact ones. *)
Module F64.

Definition vec2 : Type := float * float.

Definition vsub (u v : vec2) : vec2 := ((u.1 - v.1)%float, (u.2 - v.2)%float).

Definition dot (u v : vec2) : float := (u.1 * v.1 + u.2 * v.2)%float.

Definition getBarycentricCoord (pto vert_a vert_b vert_c : vec2)
  : float * float * float :=
  let ab := vsub vert_b vert_a in
  let ac := vsub vert_c vert_a in
  let ap := vsub pto vert_a in
  let normal_ac := ((vert_a.2 - vert_c.2)%float, (vert_c.1 - vert_a.1)%float) in
  let normal_ab := ((vert_a.2 - vert_b.2)%float, (vert_b.1 - vert_a.1)%float) in
  let bary_beta := (dot ap normal_ac / dot ab normal_ac)%float in
  let bary_gamma := (dot ap normal_ab / dot ac normal_ab)%float in
  let bary_alpha := (1.000 - bary_beta - bary_gamma)%float in
  (bary_alpha, bary_beta, bary_gamma).

End F64.

(** ** Meshes *)

(** A [trimesh.Trimesh] built with [process=False]: the vertex array and the
    connectivity array, as given. *)
Record Trimesh : Type := mkTrimesh {
  vertices : list vec3;
  faces : list (Z * Z * Z)
}.

Definition face_has (v : Z) (f : Z * Z * Z) : bool :=
  ((v =? f.1.1)%Z || (v =? f.1.2)%Z || (v =? f.2)%Z)%bool.

(** The faces incident to vertex [v], by increasing face index. *)
Definition incident_faces (m : Trimesh) (v : nat) : list nat :=
  List.filter (fun k => match faces m !! k with
                        | Some f => face_has (Z.of_nat v) f
                        | None => false
                        end) (seq 0 (length (faces m))).

(** ** Python numbers in the aggregation loop

    The accumulators of [assign_nodes_values] start as built-in floats
    ([0.0]) and become numpy scalars at the first [+=] with an array
    element. *)

Inductive pynum : Set :=
| PyFloat (q : Q)
| NpScalar (x : Np.float).

Definition to_np (a : pynum) : Np.float :=
  match a with
  | PyFloat q => Np.Fin q
  | NpScalar x => x
  end.

Definition py_add (a b : pynum) : pynum :=
  match a, b with
  | PyFloat x, PyFloat y => PyFloat (x + y)
  | _, _ => NpScalar (Np.add (to_np a) (to_np b))
  end.

(** [a / b]: float by float raises on a zero divisor, a numpy operand makes
    it numpy's division. *)
Definition py_truediv (a b : pynum) : result pynum :=
  match a, b with
  | PyFloat x, PyFloat y =>
      if Qeq_bool y 0 then Raise ZeroDivisionError else Ok (PyFloat (x / y))
  | _, _ => Ok (NpScalar (Np.div (to_np a) (to_np b)))
  end.

(** ** assign_nodes_values *)

Section Aggregator.

(** [seissolxdmf.ReadData(variable)]: the table [instant][face]. *)
Variable ReadData : string -> list (list Q).
(** [mesh.area_faces]: one area per face. *)
Variable area_faces : Trimesh -> list Q.
(** [mesh.vertex_faces]: per vertex the indices of its faces, each row
    padded with [-1] to a common length. *)
Variable vertex_faces : Trimesh -> list (list Z).

(** Body of the inner loop, lines 164-167. *)
Definition accumulate (area_triangles : list Q) (values : list (list Q))
  (instant : Z) (st : pynum * pynum) (face : Z) : result (pynum * pynum) :=
  let! area_j := getitem area_triangles face in
  let! row := getitem values instant in
  let! v_j := getitem row face in
  let value_acum := py_add st.1 (NpScalar (Np.Fin (v_j * area_j))) in
  let total_shared_area := py_add st.2 (NpScalar (Np.Fin area_j)) in
  Ok (value_acum, total_shared_area).

(** Body of the outer loop, lines 159-170, for vertex [i]. *)
Definition node_value (mesh3d : Trimesh) (area_triangles : list Q)
  (values : list (list Q)) (instant : Z) (i : Z) : result pynum :=
  let! shared_faces := getitem (vertex_faces mesh3d) i in
  let shared_faces := List.filter (fun k => negb (k =? -1)%Z) shared_faces in
  let! st := for_fold (accumulate area_triangles values instant)
                      shared_faces (PyFloat 0, PyFloat 0) in
  py_truediv st.1 st.2.

(** The array handed to [np.save]; the returned file name carries no
    data and is left out. *)
Definition assign_nodes_values (mesh3d : Trimesh) (variable : string)
  (instant : Z) : result (list Np.float) :=
  let values := ReadData variable in
  let area_triangles := area_faces mesh3d in
  let! nodes_value :=
    for_each (node_value mesh3d area_triangles values instant)
             (range (length (vertices mesh3d))) in
  Ok (map to_np nodes_value).

End Aggregator.

(** ** mesh2dCRSconversion *)

(** [transformer.transform(x, y)] on two coordinate arrays: pyproj maps
    the pairs one by one.  Every call in the source passes two arrays of
    the same length. *)
Definition transform_arrays (T : Q -> Q -> Q * Q) (x y : list Q)
  : list Q * list Q :=
  let out := map (fun xy => T xy.1 xy.2) (zip x y) in
  (map fst out, map snd out).

Section Reprojector.

(** [Transformer.from_crs(src, dst, always_xy=True)], as the map it
    applies to one coordinate pair. *)
Variable from_crs : string -> string -> Q -> Q -> Q * Q.

Definition mesh2dCRSconversion (mesh2d : Trimesh) (meshCRS : string)
  : Trimesh :=
  let transformer := from_crs meshCRS "epsg:4326" in
  let nodes_utm := vertices mesh2d in
  let x := map (fun v : vec3 => v.1.1) nodes_utm in
  let y := map (fun v : vec3 => v.1.2) nodes_utm in
  let xy_new := transform_arrays transformer x y in
  let nodes_wgs := map (fun mn : Q * Q => (mn.1, mn.2))
                       (zip xy_new.1 xy_new.2) in
  let nodes_wgs := map (fun p : Q * Q => (p.1, p.2, 0)) nodes_wgs in
  mkTrimesh nodes_wgs (faces mesh2d).

End Reprojector.

(** ** interpolate_pointCloud *)

Definition eps : Q := 0.0000925925925926.

(** [point_temp += eps] on a row of the points array. *)
Definition add_eps (p : vec3) : vec3 := (p.1.1 + eps, p.1.2 + eps, p.2 + eps).

(** [np.where(a == z)[0]]: the positions holding [z], increasing. *)
Definition np_where_eq (a : list Z) (z : Z) : list nat :=
  List.filter (fun i => match a !! i with
                        | Some k => (k =? z)%Z
                        | None => false
                        end) (seq 0 (length a)).

(** What a call leaves behind: the caller's points array (the function
    writes into it), the origins of every ray query in call order, and
    the returned array or the exception. *)
Record outcome : Type := mkOutcome {
  out_points : list vec3;
  out_queries : list (list vec3);
  out_values : result (list Np.float)
}.

(** State of the location phase, lines 193-203. *)
Record locator : Type := mkLocator {
  points : list vec3;
  face_indexes : list Z;
  queries : list (list vec3)
}.

Section Interpolator.

(** [rays.intersects_first] for one ray of direction (0, 0, 1): the index
    of the first triangle hit from the given origin, [-1] when none. *)
Variable ray_first : Trimesh -> vec3 -> Z.

Definition intersects_first (mesh : Trimesh) (origins : list vec3)
  : list Z :=
  map (ray_first mesh) origins.

(** Body of the retry loop, lines 200-203.  [i] comes from [np.where] on
    [face_indexes], which is as long as the points array, so the row
    exists; [point_temp] is a view and [+=] writes through it. *)
Definition retry (mesh2d : Trimesh) (st : locator) (i : nat) : locator :=
  let pts := alter add_eps i (points st) in
  match pts !! i with
  | Some point_temp =>
      match intersects_first mesh2d [point_temp] with
      | new_index :: _ =>
          mkLocator pts (<[i := new_index]> (face_indexes st))
                    (queries st ++ [[point_temp]])
      | [] => st
      end
  | None => st
  end.

Definition locate (mesh2d : Trimesh) (pts : list vec3) : locator :=
  let face_indexes := intersects_first mesh2d pts in
  let st := mkLocator pts face_indexes [pts] in
  if existsb (fun k => (k =? -1)%Z) face_indexes then
    let pos := np_where_eq face_indexes (-1) in
    fold_left (retry mesh2d) pos st
  else st.

(** Body of the interpolation loop, lines 207-224; the state is
    [(c, interpolated_values)]. *)
Definition interpolate_step (mesh2d : Trimesh) (nodes_values : list Q)
  (face_indexes : list Z) (points2 : list vec2)
  (st : Z * list Np.float) (index : Z) : result (Z * list Np.float) :=
  let c := st.1 in
  let! face_index := getitem face_indexes index in
  let! face_nodes := getitem (faces mesh2d) face_index in
  let node0_index := face_nodes.1.1 in
  let node1_index := face_nodes.1.2 in
  let node2_index := face_nodes.2 in
  let! node0coordinates := getitem (vertices mesh2d) node0_index in
  let! node1coordinates := getitem (vertices mesh2d) node1_index in
  let! node2coordinates := getitem (vertices mesh2d) node2_index in
  let node0coordinates := node0coordinates.1 in
  let node1coordinates := node1coordinates.1 in
  let node2coordinates := node2coordinates.1 in
  let! pto := getitem points2 c in
  let bar_coord :=
    getBarycentricCoord pto node0coordinates node1coordinates
                        node2coordinates in
  let! v0 := getitem nodes_values node0_index in
  let! v1 := getitem nodes_values node1_index in
  let! v2 := getitem nodes_values node2_index in
  let interpolated_value :=
    Np.add (Np.add (Np.mul bar_coord.1.1 (Np.Fin v0))
                   (Np.mul bar_coord.1.2 (Np.Fin v1)))
           (Np.mul bar_coord.2 (Np.Fin v2)) in
  Ok ((c + 1)%Z, st.2 ++ [interpolated_value]).

Definition interpolate_pointCloud (pts : list vec3) (mesh2d : Trimesh)
  (nodes_values : list Q) : outcome :=
  let st := locate mesh2d pts in
  let points2 := map (fun p : vec3 => p.1) (points st) in
  let r :=
    for_fold (interpolate_step mesh2d nodes_values (face_indexes st) points2)
             (range (length (face_indexes st))) (0%Z, []) in
  mkOutcome (points st) (queries st)
            (let! final := r in Ok final.2).

End Interpolator.

(** ** numpy and built-in helpers of the grid code *)

(** [np.arange(start, stop, step)] for a nonzero step:
    [ceil((stop - start) / step)] values [start + k * step].  What numpy
    does with a zero step is not modelled.  The length is the one of exact
    arithmetic: where [(stop - start) / step] is within a rounding error
    of an integer, float64 can give one value more or less. *)
Definition np_arange (start stop step : Q) : list Q :=
  map (fun k => start + inject_Z (Z.of_nat k) * step)
      (seq 0 (Z.to_nat (Qceiling ((stop - start) / step)))).

(** [list(itertools.product(x, y))]: [x] outer, [y] inner. *)
Definition product {A B} (x : list A) (y : list B) : list (A * B) :=
  flat_map (fun a => map (fun b => (a, b)) y) x.

(** The rows of [a.reshape(r, c)], cut from the flat array in order. *)
Fixpoint rows_of {A} (r c : nat) (a : list A) : list (list A) :=
  match r with
  | O => []
  | S r' => take c a :: rows_of r' c (drop c a)
  end.

(** [a.reshape(r, c)] raises [ValueError] unless [a] has [r * c] elements. *)
Definition reshape {A} (a : list A) (r c : nat) : result (list (list A)) :=
  if (length a =? r * c)%nat then Ok (rows_of r c a) else Raise ValueError.

(** [M.T] for an array with [c] columns: row [j] of the result is column
    [j] of [M]. *)
Definition transpose {A} (c : nat) (M : list (list A)) : list (list A) :=
  map (fun j => omap (fun row : list A => row !! j) M) (seq 0 c).

(** The built-in [max] and [min] over an array: [ValueError] on an empty
    one, otherwise the first extremal element. *)
Definition py_max (a : list Q) : result Q :=
  match a with
  | [] => Raise ValueError
  | x :: l => Ok (fold_left (fun m y => if Qle_bool y m then m else y) l x)
  end.

Definition py_min (a : list Q) : result Q :=
  match a with
  | [] => Raise ValueError
  | x :: l => Ok (fold_left (fun m y => if Qle_bool m y then m else y) l x)
  end.

(** ** generate_grd *)

Section GridSampler.

Variable ray_first : Trimesh -> vec3 -> Z.

(** Lines 245-252, shared with lines 475-506 of [seissol2hysea]: from
    the two axes to the array written to the grid file.  With an empty
    axis there is no point: [np.array] of the empty list is 1-D, [np.c_]
    makes it an array of shape (0, 2), and the ray query of
    [interpolate_pointCloud] rejects origins that are not (n, 3) with
    ValueError. *)
Definition sample_axes (mesh2d : Trimesh) (nodes_values : list Q)
  (x y : list Q) : result (list (list Np.float)) :=
  let Nrow := length y in
  let Ncolumn := length x in
  match product x y with
  | [] => Raise ValueError
  | _ :: _ =>
      let pts := map (fun p : Q * Q => (p.1, p.2, - (1))) (product x y) in
      let! interpolated_values :=
        out_values (interpolate_pointCloud ray_first pts mesh2d nodes_values) in
      let! interpolated_values := reshape interpolated_values Ncolumn Nrow in
      Ok (transpose Nrow interpolated_values)
  end.

(** The arguments [x], [y], [z] of the final [grdwrite]. *)
Definition generate_grd (mesh2d : Trimesh) (nodes_values : list Q)
  (xres yres : Q) (sw ne : vec2)
  : result (list Q * list Q * list (list Np.float)) :=
  let x := np_arange sw.1 ne.1 xres in
  let y := np_arange sw.2 ne.2 yres in
  let! interpolated_values := sample_axes mesh2d nodes_values x y in
  Ok (x, y, interpolated_values).

End GridSampler.

(** ** hysea_mesh_corners *)

Section Corners.

Variable from_crs : string -> string -> Q -> Q -> Q * Q.
(** [mesh.bounds]: the two opposite corners of the bounding box. *)
Variable bounds : Trimesh -> vec3 * vec3.

(** Lines 299-323, from the two corners on. *)
Definition inscribed_corners (sw ne : vec2) (inputcrs : string)
  : result (vec2 * vec2) :=
  let transformer := from_crs inputcrs "epsg:4326" in
  let x := np_arange sw.1 ne.1 1 in
  let y := np_arange sw.2 ne.2 1 in
  let y_lowerRow := replicate (length x) sw.2 in
  let new := transform_arrays transformer x y_lowerRow in
  let! ymin := py_max new.2 in
  let y_upperRow := replicate (length x) ne.2 in
  let new := transform_arrays transformer x y_upperRow in
  let! ymax := py_min new.2 in
  let x_leftColumn := replicate (length y) sw.1 in
  let new := transform_arrays transformer x_leftColumn y in
  let! xmin := py_max new.1 in
  let x_rightColumn := replicate (length y) ne.1 in
  let new := transform_arrays transformer x_rightColumn y in
  let! xmax := py_min new.1 in
  let SW_new := (xmin, ymin) in
  let NE_new := (xmax, ymax) in
  Ok (SW_new, NE_new).

Definition hysea_mesh_corners (mesh2d : Trimesh) (inputcrs : string)
  : result (vec2 * vec2) :=
  let sw := (bounds mesh2d).1.1 in
  let ne := (bounds mesh2d).2.1 in
  inscribed_corners sw ne inputcrs.

End Corners.

(** ** generateMesh3DfromSeissol, generateMesh2DfromSeissol *)

Section Loader.

(** [seissolxdmf.ReadGeometry()] and [ReadConnect()] of the output file. *)
Variable ReadGeometry : string -> list vec3.
Variable ReadConnect : string -> list (Z * Z * Z).

Definition generateMesh3DfromSeissol (path2SeissolOutput : string) : Trimesh :=
  let nodes_seissol3d := ReadGeometry path2SeissolOutput in
  let faces_seissol3d := ReadConnect path2SeissolOutput in
  mkTrimesh nodes_seissol3d faces_seissol3d.

Definition generateMesh2DfromSeissol (path2SeissolOutput : string) : Trimesh :=
  let nodes_seissol3d := ReadGeometry path2SeissolOutput in
  let faces_seissol3d := ReadConnect path2SeissolOutput in
  let nodos_seissol2d := map (fun v : vec3 => v.1) nodes_seissol3d in
  let nodos_seissol2d := map (fun p : vec2 => (p, 0)) nodos_seissol2d in
  mkTrimesh nodos_seissol2d faces_seissol3d.

End Loader.

(** ** wgs_boundaries *)

Section Boundaries.

Variable from_crs : string -> string -> Q -> Q -> Q * Q.

(** The corners LL, UL, LR, UR, in the order of the returned tuple. *)
Definition wgs_boundaries (sw ne : vec2) (inputcrs : string)
  : vec2 * vec2 * vec2 * vec2 :=
  let xmin := sw.1 in
  let xmax := ne.1 in
  let ymin := sw.2 in
  let ymax := ne.2 in
  let transformer := from_crs inputcrs "epsg:4326" in
  let LL := transformer xmin ymin in
  let UL := transformer xmin ymax in
  let LR := transformer xmax ymin in
  let UR := transformer xmax ymax in
  (LL, UL, LR, UR).

End Boundaries.

(** ** get_values_inside_rectangle *)

(** [a < b] on two floats. *)
Definition Qlt_bool (a b : Q) : bool := negb (Qle_bool b a).

(** The loop of [bisect.bisect_left(a, x, lo, hi)]:
    [while lo < hi: mid = (lo + hi) // 2;
     if a[mid] < x: lo = mid + 1 else: hi = mid].
    With [hi <= len(a)], as in every call, [a[mid]] exists. *)
Equations? bisect_loop (a : list Q) (x : Q) (lo hi : nat) : nat
  by wf (hi - lo)%nat lt :=
  bisect_loop a x lo hi with lt_dec lo hi => {
    | right _ := lo;
    | left _ with a !! ((lo + hi) / 2)%nat => {
        | Some v with Qlt_bool v x => {
            | true := bisect_loop a x (S ((lo + hi) / 2)) hi;
            | false := bisect_loop a x lo ((lo + hi) / 2) };
        | None := lo } }.
Proof.
  all: change (Nat.divmod (lo + hi) 1 0 1).1 with ((lo + hi) / 2)%nat;
    pose proof (Nat.div_mod_eq (lo + hi) 2);
    pose proof (Nat.mod_upper_bound (lo + hi) 2 ltac:(discriminate));
    lia.
Qed.

Definition bisect_left (a : list Q) (x : Q) : nat :=
  bisect_loop a x 0 (length a).

(** The slice [a[i:j]] for indices within the array. *)
Definition slice {A} (a : list A) (i j : nat) : list A :=
  take (j - i) (drop i a).

Definition get_values_inside_rectangle (x y : list Q) (sw ne : vec2)
  : list Q * list Q :=
  let indexMin := bisect_left x sw.1 in
  let indexMax := bisect_left x ne.1 in
  let x := slice x indexMin indexMax in
  let indexMin := bisect_left y sw.2 in
  let indexMax := bisect_left y ne.2 in
  let y := slice y indexMin indexMax in
  (x, y).

(** ** generate_bathymetry *)

Section Bathymetry.

Variable ReadGeometry : string -> list vec3.
Variable ReadConnect : string -> list (Z * Z * Z).
Variable from_crs : string -> string -> Q -> Q -> Q * Q.
Variable bounds : Trimesh -> vec3 * vec3.
Variable ray_first : Trimesh -> vec3 -> Z.


End Bathymetry.

(** ** Contracts of the library attributes and reference instances *)

(** Sum of an array of rationals. *)
Definition sumQ (l : list Q) : Q := foldr Qplus 0 l.

(** [sum(a_f * v_f) / sum(a_f)] over the faces [fs], with numpy's division. *)
Definition area_weighted_mean (areas vals : list Q) (fs : list nat) : Np.float :=
  Np.div (Np.Fin (sumQ (map (fun f => nth f areas 0 * nth f vals 0) fs)))
         (Np.Fin (sumQ (map (fun f => nth f areas 0) fs))).

(** What trimesh documents for [vertex_faces]: one row per vertex, holding
    the indices of the faces that contain the vertex, in some order, and
    [-1] as padding. *)
Definition vertex_faces_spec (vertex_faces : Trimesh -> list (list Z))
  (m : Trimesh) : Prop :=
  length (vertex_faces m) = length (vertices m)
  /\ forall v row, vertex_faces m !! v = Some row ->
       Permutation (List.filter (fun k => negb (k =? -1)%Z) row)
                   (map Z.of_nat (incident_faces m v)).

(** The mesh invariant of the data model: every face refers to existing
    vertices. *)
Definition faces_in_bounds (m : Trimesh) : Prop :=
  Forall (fun f : Z * Z * Z =>
            (0 <= f.1.1 < Z.of_nat (length (vertices m)))%Z
            /\ (0 <= f.1.2 < Z.of_nat (length (vertices m)))%Z
            /\ (0 <= f.2 < Z.of_nat (length (vertices m)))%Z) (faces m).

(** A table that meets [vertex_faces_spec], rows by increasing face
    index. *)
Definition vertex_faces_table (m : Trimesh) : list (list Z) :=
  let rows := map (fun v => map Z.of_nat (incident_faces m v))
                  (seq 0 (length (vertices m))) in
  let width := foldr Nat.max O (map length rows) in
  map (fun r => r ++ replicate (width - length r) (-1)%Z) rows.

(** Two triangles of area 1 sharing the edge between vertices 0 and 2. *)
Definition two_triangles : Trimesh :=
  mkTrimesh [(0, 0, 0); (2, 0, 0); (2, 1, 0); (0, 1, 0)]
            [(0, 1, 2)%Z; (0, 2, 3)%Z].

(** The same mesh with a fifth vertex that no face uses. *)
Definition two_triangles_stray : Trimesh :=
  mkTrimesh [(0, 0, 0); (2, 0, 0); (2, 1, 0); (0, 1, 0); (5, 5, 0)]
            [(0, 1, 2)%Z; (0, 2, 3)%Z].

(** Field table with one instant: 10 on the first face, 20 on the second. *)
Definition ten_twenty (variable : string) : list (list Q) := [[10; 20]].

Definition unit_areas (m : Trimesh) : list Q :=
  replicate (length (faces m)) 1.

(** ** The interpolation of one point

    The two phases of [interpolate_pointCloud] read point by point: the
    coordinates and the face index a point ends up with after the location
    phase, and the value the interpolation loop computes from them. *)

(** Line 222: the combination of the three node values. *)
Definition barycentric_value (pto a b c : vec2) (v0 v1 v2 : Q) : Np.float :=
  let bar_coord := getBarycentricCoord pto a b c in
  Np.add (Np.add (Np.mul bar_coord.1.1 (Np.Fin v0))
                 (Np.mul bar_coord.1.2 (Np.Fin v1)))
         (Np.mul bar_coord.2 (Np.Fin v2)).

(** One iteration of the interpolation loop once [face_indexes[index]] and
    [points[c]] are known. *)
Definition interpolate_at (mesh2d : Trimesh) (nodes_values : list Q)
  (face_index : Z) (pto : vec2) : result Np.float :=
  let! face_nodes := getitem (faces mesh2d) face_index in
  let! n0 := getitem (vertices mesh2d) face_nodes.1.1 in
  let! n1 := getitem (vertices mesh2d) face_nodes.1.2 in
  let! n2 := getitem (vertices mesh2d) face_nodes.2 in
  let! v0 := getitem nodes_values face_nodes.1.1 in
  let! v1 := getitem nodes_values face_nodes.1.2 in
  let! v2 := getitem nodes_values face_nodes.2 in
  Ok (barycentric_value pto n0.1 n1.1 n2.1 v0 v1 v2).

Section PerPoint.

Variable ray_first : Trimesh -> vec3 -> Z.
Variable mesh2d : Trimesh.

Definition missed (p : vec3) : bool := (ray_first mesh2d p =? -1)%Z.

(** The row of the points array after the location phase. *)
Definition effective_point (p : vec3) : vec3 :=
  if missed p then add_eps p else p.

(** The entry of [face_indexes] after the location phase. *)
Definition final_face (p : vec3) : Z :=
  if missed p then ray_first mesh2d (add_eps p) else ray_first mesh2d p.

Definition value_of_point (nodes_values : list Q) (p : vec3)
  : result Np.float :=
  interpolate_at mesh2d nodes_values (final_face p) (effective_point p).1.

End PerPoint.

(** The loops of [seissol2hysea], lines 501-507 and 516-523, hand the same
    points array to one call of [interpolate_pointCloud] per node-value
    array: this is the array after those calls. *)
Definition points_after_calls (ray_first : Trimesh -> vec3 -> Z)
  (mesh2d_wgs : Trimesh) (pts : list vec3) (arrays : list (list Q))
  : list vec3 :=
  fold_left (fun a nodes_values =>
               out_points (interpolate_pointCloud ray_first a mesh2d_wgs
                                                  nodes_values))
            arrays pts.

(** Component [w] (0, 1 or 2) of a triple. *)
Definition pick {T} (w : nat) (t : T * T * T) : T :=
  match w with
  | O => t.1.1
  | S O => t.1.2
  | _ => t.2
  end.

(** A ray caster for the examples: the first face, in array order, whose
    planar triangle contains the origin's (x, y). *)
Definition inside (p a b c : vec2) : bool :=
  match getBarycentricCoord p a b c with
  | (Np.Fin al, Np.Fin be, Np.Fin ga) =>
      Qle_bool 0 al && Qle_bool 0 be && Qle_bool 0 ga
  | _ => false
  end.

Fixpoint scan_faces (vs : list vec3) (fs : list (Z * Z * Z)) (k : Z)
  (p : vec2) : Z :=
  match fs with
  | [] => (-1)%Z
  | f :: fs' =>
      match vs !! Z.to_nat f.1.1, vs !! Z.to_nat f.1.2, vs !! Z.to_nat f.2 with
      | Some a, Some b, Some c =>
          if inside p a.1 b.1 c.1 then k else scan_faces vs fs' (k + 1)%Z p
      | _, _, _ => scan_faces vs fs' (k + 1)%Z p
      end
  end.

Definition scan_ray_first (m : Trimesh) (origin : vec3) : Z :=
  scan_faces (vertices m) (faces m) 0 origin.1.

(** A second ray caster for the examples, which misses a point lying on
    an edge or on a vertex: the first face whose open triangle contains
    the origin's (x, y). *)
Definition inside_open (p a b c : vec2) : bool :=
  match getBarycentricCoord p a b c with
  | (Np.Fin al, Np.Fin be, Np.Fin ga) =>
      negb (Qle_bool al 0) && negb (Qle_bool be 0) && negb (Qle_bool ga 0)
  | _ => false
  end.

Fixpoint scan_faces_open (vs : list vec3) (fs : list (Z * Z * Z)) (k : Z)
  (p : vec2) : Z :=
  match fs with
  | [] => (-1)%Z
  | f :: fs' =>
      match vs !! Z.to_nat f.1.1, vs !! Z.to_nat f.1.2, vs !! Z.to_nat f.2 with
      | Some a, Some b, Some c =>
          if inside_open p a.1 b.1 c.1 then k
          else scan_faces_open vs fs' (k + 1)%Z p
      | _, _, _ => scan_faces_open vs fs' (k + 1)%Z p
      end
  end.

Definition scan_ray_first_open (m : Trimesh) (origin : vec3) : Z :=
  scan_faces_open (vertices m) (faces m) 0 origin.1.

(** Node values 0, 0, 0, 10 on the four corners of [two_triangles]. *)
Definition corner_values : list Q := [0; 0; 0; 10].

(** ** Ascending arrays *)

(** What [get_values_inside_rectangle] expects of its two axes. *)
Definition ascending (a : list Q) : Prop :=
  forall i j vi vj, (i <= j)%nat -> a !! i = Some vi -> a !! j = Some vj ->
                    vi <= vj.

(** ** Extremes over the sampled edges *)

Definition is_max_of (m : Q) (l : list Q) : Prop :=
  In m l /\ forall x, In x l -> x <= m.

Definition is_min_of (m : Q) (l : list Q) : Prop :=
  In m l /\ forall x, In x l -> m <= x.

(** The sample points on the four edges of the rectangle [sw], [ne]. *)
Definition bottom_edge (sw ne : vec2) : list vec2 :=
  map (fun xk => (xk, sw.2)) (np_arange sw.1 ne.1 1).
Definition top_edge (sw ne : vec2) : list vec2 :=
  map (fun xk => (xk, ne.2)) (np_arange sw.1 ne.1 1).
Definition left_edge (sw ne : vec2) : list vec2 :=
  map (fun yk => (sw.1, yk)) (np_arange sw.2 ne.2 1).
Definition right_edge (sw ne : vec2) : list vec2 :=
  map (fun yk => (ne.1, yk)) (np_arange sw.2 ne.2 1).

(** A toy projection for the examples: a shear, so that the image of a
    rectangle is not a rectangle. *)
Definition shear (src dst : string) (x y : Q) : Q * Q :=
  (x + y / 10, y + x / 10).


(** A mesh attribute for the examples: the box of [two_triangles]. *)
Definition box_2_1 (m : Trimesh) : vec3 * vec3 := ((0, 0, 0), (2, 1, 0)).

(** * Properties *)

(** ** Results, indexing, numpy scalars *)

Lemma Qeq_bool_false (a b : Q) : ~ a == b -> Qeq_bool a b = false.
Proof.
  intros H. destruct (Qeq_bool a b) eqn:E; [|reflexivity].
  exfalso. apply H, Qeq_bool_iff, E.
Qed.

Lemma getitem_nat {A} (l : list A) (i : nat) (a : A) :
  l !! i = Some a -> getitem l (Z.of_nat i) = Ok a.
Proof.
  intros H. pose proof (lookup_lt_Some _ _ _ H) as Hlt.
  unfold getitem.
  destruct (Z.ltb_spec (Z.of_nat i) 0); [lia|].
  destruct (Z.leb_spec 0 (Z.of_nat i)); [|lia].
  destruct (Z.ltb_spec (Z.of_nat i) (Z.of_nat (length l))); [|lia].
  simpl. rewrite Nat2Z.id, H. reflexivity.
Qed.

Lemma getitem_last {A} (l : list A) (a : A) :
  last l = Some a -> getitem l (-1) = Ok a.
Proof.
  intros H. unfold getitem.
  assert (Hlen : (0 < length l)%nat).
  { destruct l; [discriminate | simpl; lia]. }
  rewrite last_lookup in H.
  destruct (Z.ltb_spec (-1) 0); [|lia].
  destruct (Z.leb_spec 0 (Z.of_nat (length l) + -1)); [|lia].
  destruct (Z.ltb_spec (Z.of_nat (length l) + -1) (Z.of_nat (length l))); [|lia].
  simpl.
  replace (Z.to_nat (Z.of_nat (length l) + -1)) with (Nat.pred (length l)) by lia.
  rewrite H. reflexivity.
Qed.

Lemma getitem_in_range {A} (l : list A) (i : Z) :
  (0 <= i < Z.of_nat (length l))%Z -> exists a, l !! Z.to_nat i = Some a /\ getitem l i = Ok a.
Proof.
  intros Hi.
  destruct (lookup_lt_is_Some_2 l (Z.to_nat i)) as [a Ha]; [lia|].
  exists a. split; [exact Ha|].
  rewrite <- (Z2Nat.id i) by lia. apply getitem_nat, Ha.
Qed.

#[global] Instance Np_eq_equiv : Equivalence Np.eq.
Proof.
  split.
  - intros [a|]; simpl; [reflexivity | exact I].
  - intros [a|] [b|]; simpl; intros H; try exact H. symmetry; exact H.
  - intros [a|] [b|] [c|]; simpl; intros H1 H2; try contradiction; try exact I.
    etransitivity; eassumption.
Qed.

Lemma Np_div_finite (a b : Q) :
  ~ b == 0 -> Np.div (Np.Fin a) (Np.Fin b) = Np.Fin (a / b).
Proof. intros H. simpl. rewrite (Qeq_bool_false _ _ H). reflexivity. Qed.

Lemma Np_div_compat (a a' b b' : Q) :
  a == a' -> b == b' ->
  Np.div (Np.Fin a) (Np.Fin b) =f= Np.div (Np.Fin a') (Np.Fin b').
Proof.
  intros Ha Hb. simpl.
  destruct (Qeq_bool b 0) eqn:E, (Qeq_bool b' 0) eqn:E'; simpl.
  - exact I.
  - apply Qeq_bool_iff in E. rewrite Hb in E.
    apply Qeq_bool_iff in E. congruence.
  - apply Qeq_bool_iff in E'. rewrite <- Hb in E'.
    apply Qeq_bool_iff in E'. congruence.
  - rewrite Ha, Hb. reflexivity.
Qed.

(** ** Barycentric coordinates *)

(** The divisor of [bary_gamma] is the opposite of the divisor of
    [bary_beta]: both are twice the signed area of the triangle. *)
Lemma divisors_opposite (a b c : vec2) :
  dot (vsub c a) (a.2 - b.2, b.1 - a.1)
  == - dot (vsub b a) (a.2 - c.2, c.1 - a.1).
Proof. unfold dot, vsub; simpl. ring. Qed.

(** C2, over exact rationals: for a triangle whose two divisors are
    nonzero, getBarycentricCoord returns finite values with
    beta = ((p-A).n_AC)/((B-A).n_AC), n_AC = (A.y-C.y, C.x-A.x),
    gamma = ((p-A).n_AB)/((C-A).n_AB), n_AB = (A.y-B.y, B.x-A.x),
    alpha = 1 - beta - gamma, written out in the coordinates of p, A, B
    and C, and the three sum to 1 exactly. *)
Theorem barycentric_explicit_formulas (px py ax ay bx by_ cx cy : Q) :
  let d_beta := (bx - ax) * (ay - cy) + (by_ - ay) * (cx - ax) in
  let d_gamma := (cx - ax) * (ay - by_) + (cy - ay) * (bx - ax) in
  ~ d_beta == 0 ->
  ~ d_gamma == 0 ->
  exists alpha beta gamma : Q,
    getBarycentricCoord (px, py) (ax, ay) (bx, by_) (cx, cy)
    = (Np.Fin alpha, Np.Fin beta, Np.Fin gamma)
    /\ beta == ((px - ax) * (ay - cy) + (py - ay) * (cx - ax)) / d_beta
    /\ gamma == ((px - ax) * (ay - by_) + (py - ay) * (bx - ax)) / d_gamma
    /\ alpha == 1 - beta - gamma
    /\ alpha + beta + gamma == 1.
Proof.
  intros d_beta d_gamma Hb Hc. subst d_beta d_gamma.
  unfold getBarycentricCoord. cbv zeta.
  rewrite (Np_div_finite _ _ Hb), (Np_div_finite _ _ Hc).
  simpl Np.sub.
  eexists _, _, _. split; [reflexivity|].
  split; [reflexivity|]. split; [reflexivity|]. split; [reflexivity|].
  unfold dot, vsub. cbn [fst snd]. ring.
Qed.

(** The triangle (1, 1), (3, 1), (1, 2) and the point (2, 5/4): the
    coordinates are 1/4, 1/2, 1/4. *)
Lemma barycentric_explicit_formulas_witness :
  exists alpha beta gamma : Q,
    getBarycentricCoord (2, 5 # 4) (1, 1) (3, 1) (1, 2)
    = (Np.Fin alpha, Np.Fin beta, Np.Fin gamma)
    /\ alpha == 1 # 4 /\ beta == 1 # 2 /\ gamma == 1 # 4
    /\ alpha + beta + gamma == 1.
Proof.
  destruct (barycentric_explicit_formulas 2 (5 # 4) 1 1 3 1 1 2)
    as (alpha & beta & gamma & E & Hb & Hg & Ha & Hs).
  - vm_compute. discriminate.
  - vm_compute. discriminate.
  - exists alpha, beta, gamma. split; [exact E|].
    split; [rewrite Ha, Hb, Hg; reflexivity|].
    split; [rewrite Hb; reflexivity|].
    split; [rewrite Hg; reflexivity | exact Hs].
Defined.

(** In float64 the sum can be far from 1.  For the unit right triangle
    and p = (1e16, 0) both divisors are nonzero, beta is 1e16 and
    1 - 1e16 rounds to -1e16, so the three coordinates sum to 0, more
    than 0.5 away from 1. *)
Lemma barycentric_float64_sum_not_one :
  let A := (0, 0)%float in
  let B := (1, 0)%float in
  let C := (0, 1)%float in
  let c := F64.getBarycentricCoord (1e16, 0)%float A B C in
  let sum := (c.1.1 + c.1.2 + c.2)%float in
  PrimFloat.eqb (F64.dot (F64.vsub B A) ((A.2 - C.2)%float, (C.1 - A.1)%float))
                0%float = false
  /\ PrimFloat.eqb (F64.dot (F64.vsub C A) ((A.2 - B.2)%float, (B.1 - A.1)%float))
                   0%float = false
  /\ PrimFloat.eqb c.1.2 1e16%float = true
  /\ PrimFloat.eqb sum 0%float = true
  /\ PrimFloat.ltb 0.5%float (PrimFloat.abs (sum - 1)%float) = true.
Proof. vm_compute. repeat split. Qed.

(** ** CRS reprojection *)

Lemma zip_columns {A B C} (f : A -> B) (g : A -> C) (l : list A) :
  zip (map f l) (map g l) = map (fun a => (f a, g a)) l.
Proof. induction l as [|a l IH]; simpl; [reflexivity | now rewrite IH]. Qed.

Lemma transform_arrays_columns {A} (T : Q -> Q -> Q * Q) (f g : A -> Q)
  (l : list A) :
  transform_arrays T (map f l) (map g l)
  = (map (fun a => (T (f a) (g a)).1) l, map (fun a => (T (f a) (g a)).2) l).
Proof.
  unfold transform_arrays. rewrite zip_columns, !map_map. reflexivity.
Qed.

(** C8: the reprojected mesh has the faces array of the input, as many
    vertices, vertex [i] is the image of input vertex [i] alone under the
    transform of the CRS pair, and every z-component is 0. *)
Theorem mesh2dCRSconversion_frame
  (from_crs : string -> string -> Q -> Q -> Q * Q)
  (mesh2d : Trimesh) (meshCRS : string) :
  let T := from_crs meshCRS "epsg:4326"%string in
  let out := mesh2dCRSconversion from_crs mesh2d meshCRS in
  faces out = faces mesh2d
  /\ length (vertices out) = length (vertices mesh2d)
  /\ vertices out
     = map (fun v : vec3 => ((T v.1.1 v.1.2).1, (T v.1.1 v.1.2).2, 0))
           (vertices mesh2d)
  /\ Forall (fun v : vec3 => v.2 = 0) (vertices out).
Proof.
  intros T out.
  assert (E : vertices out
              = map (fun v : vec3 => ((T v.1.1 v.1.2).1, (T v.1.1 v.1.2).2, 0))
                    (vertices mesh2d)).
  { unfold out, mesh2dCRSconversion. cbv zeta. fold T.
    rewrite transform_arrays_columns. cbn [vertices fst snd].
    rewrite zip_columns, !map_map. reflexivity. }
  split; [reflexivity|].
  split; [rewrite E; apply length_map|].
  split; [exact E|].
  rewrite E. apply List.Forall_forall. intros v Hv.
  apply in_map_iff in Hv. destruct Hv as (u & <- & _). reflexivity.
Qed.

(** ** Node values *)

Lemma for_each_ok {A B} (f : A -> result B) (P : A -> B -> Prop) (l : list A) :
  (forall a, In a l -> exists b, f a = Ok b /\ P a b) ->
  exists bs, for_each f l = Ok bs /\ Forall2 P l bs.
Proof.
  induction l as [|a l IH]; intros H; simpl.
  - exists []. split; [reflexivity | constructor].
  - destruct (H a) as (b & Eb & Pb); [now left|].
    destruct IH as (bs & Ebs & Pbs); [intros; apply H; now right|].
    rewrite Eb, Ebs. simpl. exists (b :: bs). split; [reflexivity|].
    constructor; assumption.
Qed.

Lemma for_each_raise {A B} (f : A -> result B) (e : exn) (l : list A) :
  (forall a, In a l -> Py.is_ok (f a) = true \/ f a = Raise e) ->
  (exists a, In a l /\ f a = Raise e) ->
  for_each f l = Raise e.
Proof.
  induction l as [|a l IH]; intros Hall (a0 & Hin & Ha0); [destruct Hin|].
  simpl. destruct (Hall a) as [Hok | Hr]; [now left | | now rewrite Hr].
  destruct (f a) as [b|e'] eqn:Eb; [|discriminate]. simpl.
  rewrite IH; [reflexivity | intros; apply Hall; now right |].
  destruct Hin as [-> | Hin]; [congruence|].
  exists a0. split; assumption.
Qed.

Lemma range_lookup (n v : nat) :
  (v < n)%nat -> Py.range n !! v = Some (Z.of_nat v).
Proof.
  intros H. unfold Py.range.
  change (map Z.of_nat (seq 0 n)) with (Z.of_nat <$> seq 0 n).
  rewrite list_lookup_fmap, lookup_seq_lt by exact H. reflexivity.
Qed.

Lemma range_In (n : nat) (z : Z) :
  In z (Py.range n) -> exists v, z = Z.of_nat v /\ (v < n)%nat.
Proof.
  unfold Py.range. intros H. apply in_map_iff in H.
  destruct H as (v & <- & Hv). apply in_seq in Hv.
  exists v. split; [reflexivity | lia].
Qed.

Lemma range_length (n : nat) : length (Py.range n) = n.
Proof. unfold Py.range. now rewrite length_map, length_seq. Qed.

Lemma sumQ_perm (l l' : list Q) : Permutation l l' -> sumQ l == sumQ l'.
Proof.
  induction 1; simpl.
  - reflexivity.
  - rewrite IHPermutation. reflexivity.
  - ring.
  - etransitivity; eassumption.
Qed.

Lemma incident_faces_lt (m : Trimesh) (v k : nat) :
  In k (incident_faces m v) -> (k < length (faces m))%nat.
Proof.
  unfold incident_faces. intros H. apply filter_In in H.
  destruct H as [H _]. apply in_seq in H. lia.
Qed.

Lemma lookup_nth {A} (l : list A) (k : nat) (d : A) :
  (k < length l)%nat -> l !! k = Some (nth k l d).
Proof.
  revert k. induction l as [|a l IH]; intros [|k] H; simpl in *; try lia.
  - reflexivity.
  - apply IH. lia.
Qed.

Section AggregatorFacts.

Variable ReadData : string -> list (list Q).
Variable area_faces : Trimesh -> list Q.
Variable vertex_faces : Trimesh -> list (list Z).
Variables (m : Trimesh) (variable : string) (instant : Z) (row : list Q).

Hypothesis Hvf : vertex_faces_spec vertex_faces m.
Hypothesis Harea : length (area_faces m) = length (faces m).
Hypothesis Hrow : getitem (ReadData variable) instant = Ok row.
Hypothesis Hlen : length row = length (faces m).

Let area (k : nat) : Q := nth k (area_faces m) 0.
Let value (k : nat) : Q := nth k row 0.
Let body := accumulate (area_faces m) (ReadData variable) instant.

Lemma accumulate_in_range (st : pynum * pynum) (k : nat) :
  (k < length (faces m))%nat ->
  body st (Z.of_nat k)
  = Ok (py_add st.1 (NpScalar (Np.Fin (value k * area k))),
        py_add st.2 (NpScalar (Np.Fin (area k)))).
Proof.
  intros Hk. unfold body, accumulate.
  rewrite (getitem_nat _ _ (area k)) by (apply lookup_nth; lia).
  simpl. rewrite Hrow. simpl.
  rewrite (getitem_nat _ _ (value k)) by (apply lookup_nth; lia).
  reflexivity.
Qed.

Lemma for_fold_numpy (ks : list nat) (v0 t0 : Q) :
  (forall k, In k ks -> (k < length (faces m))%nat) ->
  exists v t,
    for_fold body (map Z.of_nat ks)
             (NpScalar (Np.Fin v0), NpScalar (Np.Fin t0))
    = Ok (NpScalar (Np.Fin v), NpScalar (Np.Fin t))
    /\ v == v0 + sumQ (map (fun k => area k * value k) ks)
    /\ t == t0 + sumQ (map area ks).
Proof.
  revert v0 t0. induction ks as [|k ks IH]; intros v0 t0 Hks; simpl.
  - exists v0, t0. split; [reflexivity|]. split; ring.
  - rewrite accumulate_in_range by (apply Hks; now left). simpl.
    destruct (IH (v0 + value k * area k) (t0 + area k)) as (v & t & E & Hv & Ht).
    { intros; apply Hks; now right. }
    exists v, t. split; [exact E|].
    split; [rewrite Hv | rewrite Ht]; ring.
Qed.

(** The first [+=] turns both accumulators into numpy scalars. *)
Lemma for_fold_from_floats (k : nat) (ks : list nat) :
  (forall j, In j (k :: ks) -> (j < length (faces m))%nat) ->
  exists v t,
    for_fold body (map Z.of_nat (k :: ks)) (PyFloat 0, PyFloat 0)
    = Ok (NpScalar (Np.Fin v), NpScalar (Np.Fin t))
    /\ v == sumQ (map (fun k => area k * value k) (k :: ks))
    /\ t == sumQ (map area (k :: ks)).
Proof.
  intros Hks. simpl map. simpl for_fold.
  rewrite accumulate_in_range by (apply Hks; now left). simpl.
  destruct (for_fold_numpy ks (0 + value k * area k) (0 + area k))
    as (v & t & E & Hv & Ht).
  { intros; apply Hks; now right. }
  exists v, t. split; [exact E|].
  split; [rewrite Hv | rewrite Ht]; ring.
Qed.

(** The entries of a row other than [-1], read back as naturals. *)
Lemma shared_faces_nat (v : nat) (rowv : list Z) :
  vertex_faces m !! v = Some rowv ->
  let shared := List.filter (fun k => negb (k =? -1)%Z) rowv in
  shared = map Z.of_nat (map Z.to_nat shared)
  /\ Permutation (map Z.to_nat shared) (incident_faces m v).
Proof.
  intros Hv shared. destruct Hvf as [_ Hperm].
  specialize (Hperm v rowv Hv). fold shared in Hperm.
  split.
  - rewrite map_map. rewrite <- (map_id shared) at 1.
    apply map_ext_in. intros z Hz.
    apply (Permutation_in _ Hperm) in Hz. apply in_map_iff in Hz.
    destruct Hz as (k & <- & _). now rewrite Nat2Z.id.
  - apply (Permutation_map Z.to_nat) in Hperm.
    rewrite map_map in Hperm.
    rewrite (map_ext _ id) in Hperm by (intros; apply Nat2Z.id).
    now rewrite map_id in Hperm.
Qed.

Lemma vertex_faces_row (v : nat) :
  (v < length (vertices m))%nat ->
  exists rowv, vertex_faces m !! v = Some rowv
               /\ getitem (vertex_faces m) (Z.of_nat v) = Ok rowv.
Proof.
  intros Hv. destruct Hvf as [Hl _].
  destruct (lookup_lt_is_Some_2 (vertex_faces m) v) as [rowv E]; [lia|].
  exists rowv. split; [exact E | apply getitem_nat, E].
Qed.

Lemma node_value_isolated (v : nat) :
  (v < length (vertices m))%nat ->
  incident_faces m v = [] ->
  node_value vertex_faces m (area_faces m) (ReadData variable) instant
             (Z.of_nat v)
  = Raise ZeroDivisionError.
Proof.
  intros Hv Hnone. unfold node_value.
  destruct (vertex_faces_row v Hv) as (rowv & Erow & ->). simpl.
  destruct (shared_faces_nat v rowv Erow) as [_ Hperm].
  rewrite Hnone in Hperm. apply Permutation_nil_r in Hperm.
  apply map_eq_nil in Hperm. rewrite Hperm. reflexivity.
Qed.

Lemma node_value_mean (v : nat) :
  (v < length (vertices m))%nat ->
  incident_faces m v <> [] ->
  exists x,
    node_value vertex_faces m (area_faces m) (ReadData variable) instant
               (Z.of_nat v)
    = Ok (NpScalar x)
    /\ x =f= area_weighted_mean (area_faces m) row (incident_faces m v).
Proof.
  intros Hv Hsome. unfold node_value.
  destruct (vertex_faces_row v Hv) as (rowv & Erow & ->). simpl.
  destruct (shared_faces_nat v rowv Erow) as [Enat Hperm].
  rewrite Enat.
  destruct (map Z.to_nat (List.filter (fun k => negb (k =? -1)%Z) rowv))
    as [|k ks] eqn:Eks.
  { apply Permutation_nil in Hperm. congruence. }
  destruct (for_fold_from_floats k ks) as (a & t & E & Ha & Ht).
  { intros j Hj. apply (incident_faces_lt m v).
    apply (Permutation_in _ Hperm), Hj. }
  fold body. rewrite E. simpl.
  eexists. split; [reflexivity|].
  unfold area_weighted_mean. apply Np_div_compat.
  - rewrite Ha. apply sumQ_perm.
    apply (Permutation_map (fun k => area k * value k)), Hperm.
  - rewrite Ht. apply sumQ_perm. apply (Permutation_map area), Hperm.
Qed.

End AggregatorFacts.

Lemma filter_padding (ks : list nat) (n : nat) :
  List.filter (fun k => negb (k =? -1)%Z)
              (map Z.of_nat ks ++ replicate n (-1)%Z)
  = map Z.of_nat ks.
Proof.
  induction ks as [|k ks IH]; simpl.
  - induction n as [|n IHn]; simpl; [reflexivity | exact IHn].
  - destruct (Z.eqb_spec (Z.of_nat k) (-1)); [lia|]. simpl. now rewrite IH.
Qed.

Lemma vertex_faces_table_spec (m : Trimesh) :
  vertex_faces_spec vertex_faces_table m.
Proof.
  unfold vertex_faces_spec, vertex_faces_table. split.
  - now rewrite !length_map, length_seq.
  - intros v row Hrow.
    change (map ?f ?l) with (f <$> l) in Hrow at 1.
    rewrite list_lookup_fmap in Hrow.
    change (map ?f ?l) with (f <$> l) in Hrow at 1.
    rewrite list_lookup_fmap in Hrow.
    destruct (seq 0 (length (vertices m)) !! v) as [w|] eqn:Ew;
      [|discriminate].
    apply lookup_seq in Ew. destruct Ew as [-> _].
    simpl in Hrow. injection Hrow as <-.
    rewrite filter_padding. reflexivity.
Qed.

(** C1: on a mesh whose vertices all have an incident face, the array
    computed by assign_nodes_values holds, at every vertex v, the
    area-weighted mean sum(a_f * v_f) / sum(a_f) over exactly the faces
    incident to v, the samples v_f being those of the chosen variable and
    instant. *)
Theorem assign_nodes_values_weighted_mean
  (ReadData : string -> list (list Q)) (area_faces : Trimesh -> list Q)
  (vertex_faces : Trimesh -> list (list Z))
  (m : Trimesh) (variable : string) (instant : Z) (row : list Q) :
  vertex_faces_spec vertex_faces m ->
  length (area_faces m) = length (faces m) ->
  getitem (ReadData variable) instant = Ok row ->
  length row = length (faces m) ->
  (forall v, (v < length (vertices m))%nat -> incident_faces m v <> []) ->
  exists arr,
    assign_nodes_values ReadData area_faces vertex_faces m variable instant
    = Ok arr
    /\ length arr = length (vertices m)
    /\ forall v, (v < length (vertices m))%nat ->
         let fs := incident_faces m v in
         let area := fun f => nth f (area_faces m) 0 in
         let sample := fun f => nth f row 0 in
         exists x, arr !! v = Some x
           /\ x =f= area_weighted_mean (area_faces m) row fs
           /\ (~ sumQ (map area fs) == 0 ->
               x =f= Np.Fin (sumQ (map (fun f => area f * sample f) fs)
                             / sumQ (map area fs))).
Proof.
  intros Hvf Harea Hrow Hlen Hinc. unfold assign_nodes_values.
  destruct (for_each_ok
              (node_value vertex_faces m (area_faces m) (ReadData variable)
                          instant)
              (fun z y => to_np y
                 =f= area_weighted_mean (area_faces m) row
                       (incident_faces m (Z.to_nat z)))
              (Py.range (length (vertices m)))) as (ys & E & Hys).
  { intros z Hz. apply range_In in Hz. destruct Hz as (v & -> & Hv).
    destruct (node_value_mean ReadData area_faces vertex_faces m variable
                instant row Hvf Harea Hrow Hlen v Hv (Hinc v Hv))
      as (x & Ex & Hx).
    exists (NpScalar x). rewrite Nat2Z.id. split; [exact Ex | exact Hx]. }
  rewrite E. simpl. eexists. split; [reflexivity|].
  pose proof (Forall2_length _ _ _ Hys) as Hl. rewrite range_length in Hl.
  split; [now rewrite length_map|].
  intros v Hv. cbv zeta.
  destruct (Forall2_lookup_l _ _ _ v _ Hys (range_lookup _ _ Hv))
    as (y & Ey & Hy).
  rewrite Nat2Z.id in Hy.
  exists (to_np y). split; [|split].
  - change (map to_np ys) with (to_np <$> ys).
    now rewrite list_lookup_fmap, Ey.
  - exact Hy.
  - intros Hpos. etransitivity; [exact Hy|].
    unfold area_weighted_mean.
    rewrite (Np_div_finite _ _ Hpos). reflexivity.
Qed.

(** Vertex 0 of [two_triangles] is shared by two faces of area 1 carrying
    10 and 20: its node value is 15. *)
Lemma assign_nodes_values_weighted_mean_witness :
  exists arr x,
    assign_nodes_values ten_twenty unit_areas vertex_faces_table
                        two_triangles "u3" 0
    = Ok arr
    /\ arr !! 0%nat = Some x /\ x =f= Np.Fin 15.
Proof.
  destruct (assign_nodes_values_weighted_mean ten_twenty unit_areas
              vertex_faces_table two_triangles "u3" 0 [10; 20])
    as (arr & E & _ & Hmean).
  - apply vertex_faces_table_spec.
  - reflexivity.
  - reflexivity.
  - reflexivity.
  - intros v Hv. simpl in Hv.
    destruct v as [|[|[|[|v]]]]; try (vm_compute; discriminate). lia.
  - destruct (Hmean 0%nat) as (x & Ex & Hx & _); [simpl; lia|].
    exists arr, x. split; [exact E|]. split; [exact Ex|].
    etransitivity; [exact Hx|]. vm_compute. reflexivity.
Defined.

(** The whole array of that example, evaluated. *)
Example two_triangles_node_values :
  exists arr,
    assign_nodes_values ten_twenty unit_areas vertex_faces_table
                        two_triangles "u3" 0
    = Ok arr
    /\ Forall2 Np.eq arr [Np.Fin 15; Np.Fin 10; Np.Fin 15; Np.Fin 20].
Proof.
  eexists. split; [vm_compute; reflexivity|].
  repeat constructor.
Qed.

(** Faces of area 0 are another matter: the accumulators are numpy scalars
    by then, the division gives a non-finite value and the loop goes on. *)
Example zero_areas_node_values :
  assign_nodes_values ten_twenty (fun m => replicate (length (faces m)) 0)
                      vertex_faces_table two_triangles "u3" 0
  = Ok [Np.NonFinite; Np.NonFinite; Np.NonFinite; Np.NonFinite].
Proof. reflexivity. Qed.

(** C7, as the code behaves: on a mesh with a vertex that no face uses the
    aggregation stops with Python's ZeroDivisionError (the division of the
    two untouched float accumulators), so no array, and in particular no
    non-finite node value, is produced. *)
Theorem assign_nodes_values_isolated_vertex
  (ReadData : string -> list (list Q)) (area_faces : Trimesh -> list Q)
  (vertex_faces : Trimesh -> list (list Z))
  (m : Trimesh) (variable : string) (instant : Z) (row : list Q) :
  vertex_faces_spec vertex_faces m ->
  length (area_faces m) = length (faces m) ->
  getitem (ReadData variable) instant = Ok row ->
  length row = length (faces m) ->
  (exists v, (v < length (vertices m))%nat /\ incident_faces m v = []) ->
  assign_nodes_values ReadData area_faces vertex_faces m variable instant
  = Raise ZeroDivisionError.
Proof.
  intros Hvf Harea Hrow Hlen (v & Hv & Hnone). unfold assign_nodes_values.
  rewrite (for_each_raise _ ZeroDivisionError); [reflexivity | |].
  - intros z Hz. apply range_In in Hz. destruct Hz as (w & -> & Hw).
    destruct (incident_faces m w) as [|k ks] eqn:Ew.
    + right. eapply node_value_isolated; eassumption.
    + left.
      destruct (node_value_mean ReadData area_faces vertex_faces m variable
                  instant row Hvf Harea Hrow Hlen w Hw) as (x & -> & _);
        [congruence | reflexivity].
  - exists (Z.of_nat v). split.
    + unfold Py.range. apply in_map, in_seq. lia.
    + eapply node_value_isolated; eassumption.
Qed.

Lemma assign_nodes_values_isolated_vertex_witness :
  assign_nodes_values ten_twenty unit_areas vertex_faces_table
                      two_triangles_stray "u3" 0
  = Raise ZeroDivisionError.
Proof.
  apply (assign_nodes_values_isolated_vertex ten_twenty unit_areas
           vertex_faces_table two_triangles_stray "u3" 0 [10; 20]).
  - apply vertex_faces_table_spec.
  - reflexivity.
  - reflexivity.
  - reflexivity.
  - exists 4%nat. split; [simpl; lia | reflexivity].
Defined.

(** Vertex 4 of [two_triangles_stray] has no incident face, and the
    aggregation does not end in DegenerateMeshError. *)
Lemma assign_nodes_values_no_DegenerateMeshError :
  incident_faces two_triangles_stray 4 = []
  /\ assign_nodes_values ten_twenty unit_areas vertex_faces_table
                         two_triangles_stray "u3" 0
     <> Raise DegenerateMeshError.
Proof. split; [reflexivity | vm_compute; discriminate]. Qed.

(** ** The location phase *)

Lemma np_where_eq_In (a : list Z) (z : Z) (i : nat) :
  In i (np_where_eq a z) <-> a !! i = Some z.
Proof.
  unfold np_where_eq. rewrite filter_In, in_seq. split.
  - intros [_ H]. destruct (a !! i) as [k|]; [|discriminate].
    apply Z.eqb_eq in H. now subst.
  - intros H. split.
    + apply lookup_lt_Some in H. lia.
    + rewrite H. apply Z.eqb_refl.
Qed.

Lemma np_where_eq_NoDup (a : list Z) (z : Z) : List.NoDup (np_where_eq a z).
Proof. unfold np_where_eq. apply List.NoDup_filter, List.seq_NoDup. Qed.

Lemma np_where_eq_absent (a : list Z) (z : Z) :
  existsb (fun k => (k =? z)%Z) a = false -> np_where_eq a z = [].
Proof.
  intros H. destruct (np_where_eq a z) as [|i l] eqn:E; [reflexivity|].
  assert (Hi : In i (np_where_eq a z)) by (rewrite E; now left).
  apply np_where_eq_In in Hi.
  assert (Hex : existsb (fun k => (k =? z)%Z) a = true).
  { apply existsb_exists. exists z. split; [|apply Z.eqb_refl].
    apply list_elem_of_In, list_elem_of_lookup. now exists i. }
  congruence.
Qed.

Section LocatorFacts.

Variable ray_first : Trimesh -> vec3 -> Z.
Variable mesh2d : Trimesh.

Let ray := ray_first mesh2d.
Let step := retry ray_first mesh2d.

(** The queries of the retry loop over the positions [pos]. *)
Let retried (pts : list vec3) (pos : list nat) : list (list vec3) :=
  flat_map (fun i => match pts !! i with
                     | Some p => [[add_eps p]]
                     | None => []
                     end) pos.

Lemma retried_ext (pts pts' : list vec3) (pos : list nat) :
  (forall i, In i pos -> pts !! i = pts' !! i) ->
  retried pts pos = retried pts' pos.
Proof.
  induction pos as [|i pos IH]; intros H; simpl; [reflexivity|].
  rewrite (H i) by now left. f_equal. apply IH. intros; apply H; now right.
Qed.

Lemma retry_at (st : locator) (i : nat) (p : vec3) :
  points st !! i = Some p ->
  step st i
  = mkLocator (alter add_eps i (points st))
              (<[i := ray (add_eps p)]> (face_indexes st))
              (queries st ++ [[add_eps p]]).
Proof.
  intros H. unfold step, retry.
  rewrite list_lookup_alter_eq, H. reflexivity.
Qed.

Lemma fold_retry (pos : list nat) : forall st : locator,
  List.NoDup pos ->
  (forall i, In i pos -> (i < length (points st))%nat) ->
  length (face_indexes st) = length (points st) ->
  let st' := fold_left step pos st in
  (forall j, In j pos ->
     points st' !! j = add_eps <$> points st !! j
     /\ face_indexes st' !! j
        = (fun p => ray (add_eps p)) <$> points st !! j)
  /\ (forall j, ~ In j pos ->
        points st' !! j = points st !! j
        /\ face_indexes st' !! j = face_indexes st !! j)
  /\ queries st' = queries st ++ retried (points st) pos.
Proof.
  induction pos as [|i pos IH]; intros st Hnd Hlt Hlen; simpl.
  - split; [intros j []|]. split; [now intros|]. now rewrite app_nil_r.
  - apply List.NoDup_cons_iff in Hnd. destruct Hnd as [Hi Hnd].
    destruct (lookup_lt_is_Some_2 (points st) i) as [p Hp];
      [apply Hlt; now left|].
    rewrite (retry_at st i p Hp).
    set (st1 := mkLocator _ _ _).
    destruct (IH st1 Hnd) as (Hin & Hout & Hq).
    { intros k Hk. simpl. rewrite length_alter. apply Hlt. now right. }
    { simpl. now rewrite length_alter, length_insert. }
    split; [|split].
    + intros j [<- | Hj].
      * destruct (Hout i Hi) as [-> ->]. simpl.
        rewrite list_lookup_alter_eq, Hp. split; [reflexivity|].
        apply list_lookup_insert_eq. rewrite Hlen.
        apply Hlt. now left.
      * assert (i <> j) by (intros ->; contradiction).
        destruct (Hin j Hj) as [-> ->]. simpl.
        now rewrite list_lookup_alter_ne.
    + intros j Hj.
      assert (i <> j) by (intros ->; apply Hj; now left).
      destruct (Hout j) as [-> ->]; [intros ?; apply Hj; now right|].
      simpl. now rewrite list_lookup_alter_ne, list_lookup_insert_ne.
    + rewrite Hq. simpl. rewrite Hp, <- app_assoc. simpl.
      do 2 f_equal. apply retried_ext. intros k Hk.
      apply list_lookup_alter_ne. intros ->; contradiction.
Qed.

Lemma locate_unfold (pts : list vec3) :
  locate ray_first mesh2d pts
  = fold_left step (np_where_eq (map ray pts) (-1))
              (mkLocator pts (map ray pts) [pts]).
Proof.
  unfold locate, intersects_first. fold ray.
  destruct (existsb _ _) eqn:E; [reflexivity|].
  now rewrite (np_where_eq_absent _ _ E).
Qed.

Lemma missed_positions (pts : list vec3) (j : nat) :
  In j (np_where_eq (map ray pts) (-1))
  <-> exists p, pts !! j = Some p /\ missed ray_first mesh2d p = true.
Proof.
  rewrite np_where_eq_In.
  change (map ray pts) with (ray <$> pts). rewrite list_lookup_fmap.
  unfold missed. fold ray. split.
  - destruct (pts !! j) as [p|]; [|discriminate]. simpl.
    intros [= H]. exists p. split; [reflexivity|]. now apply Z.eqb_eq.
  - intros (p & -> & H). simpl. f_equal. now apply Z.eqb_eq.
Qed.

Lemma retried_filter (pre pts : list vec3) :
  retried (pre ++ pts)
    (List.filter (fun i => match (map ray (pre ++ pts)) !! i with
                           | Some k => (k =? -1)%Z
                           | None => false
                           end) (seq (length pre) (length pts)))
  = map (fun p => [add_eps p]) (List.filter (missed ray_first mesh2d) pts).
Proof.
  revert pre. induction pts as [|a pts IH]; intros pre; [reflexivity|].
  simpl seq. simpl List.filter.
  change (map ray (pre ++ a :: pts)) with (ray <$> (pre ++ a :: pts)).
  rewrite list_lookup_fmap, list_lookup_middle by reflexivity. simpl.
  specialize (IH (pre ++ [a])).
  rewrite <- app_assoc, length_app in IH. simpl in IH.
  rewrite Nat.add_1_r in IH.
  unfold missed at 1. fold ray.
  destruct (ray a =? -1)%Z; simpl.
  - rewrite list_lookup_middle by reflexivity. simpl. f_equal. exact IH.
  - exact IH.
Qed.

(** The location phase, point by point. *)
Lemma locate_spec (pts : list vec3) :
  locate ray_first mesh2d pts
  = mkLocator (map (effective_point ray_first mesh2d) pts)
              (map (final_face ray_first mesh2d) pts)
              (pts :: map (fun p => [add_eps p])
                          (List.filter (missed ray_first mesh2d) pts)).
Proof.
  rewrite locate_unfold.
  pose proof (fold_retry (np_where_eq (map ray pts) (-1))
                (mkLocator pts (map ray pts) [pts])
                (np_where_eq_NoDup _ _)) as H.
  simpl in H. destruct H as (Hin & Hout & Hq).
  { intros i Hi. apply missed_positions in Hi.
    destruct Hi as (p & Hp & _). now apply lookup_lt_Some in Hp. }
  { apply length_map. }
  destruct (fold_left step _ _) as [pts' fis' qs']. simpl in *.
  f_equal.
  - apply list_eq. intros j.
    change (map ?f pts) with (f <$> pts). rewrite list_lookup_fmap.
    destruct (in_dec Nat.eq_dec j (np_where_eq (map ray pts) (-1)))
      as [Hj | Hj].
    + destruct (Hin j Hj) as [-> _]. apply missed_positions in Hj.
      destruct Hj as (p & -> & Hm). simpl.
      unfold effective_point. now rewrite Hm.
    + destruct (Hout j Hj) as [-> _].
      destruct (pts !! j) as [p|] eqn:Ep; [|reflexivity]. simpl.
      unfold effective_point.
      destruct (missed ray_first mesh2d p) eqn:Hm; [|reflexivity].
      exfalso. apply Hj, missed_positions. now exists p.
  - apply list_eq. intros j.
    change (map ?f pts) with (f <$> pts). rewrite list_lookup_fmap.
    destruct (in_dec Nat.eq_dec j (np_where_eq (map ray pts) (-1)))
      as [Hj | Hj].
    + destruct (Hin j Hj) as [_ ->]. apply missed_positions in Hj.
      destruct Hj as (p & -> & Hm). simpl.
      unfold final_face. now rewrite Hm.
    + destruct (Hout j Hj) as [_ ->].
      change (map ray pts) with (ray <$> pts). rewrite list_lookup_fmap.
      destruct (pts !! j) as [p|] eqn:Ep; [|reflexivity]. simpl.
      unfold final_face.
      destruct (missed ray_first mesh2d p) eqn:Hm; [|reflexivity].
      exfalso. apply Hj, missed_positions. now exists p.
  - rewrite Hq. simpl. f_equal.
    pose proof (retried_filter [] pts) as R. simpl in R.
    unfold np_where_eq. rewrite length_map. exact R.
Qed.

End LocatorFacts.

(** ** The interpolation loop *)

Lemma for_each_map {A B C} (f : B -> result C) (g : A -> B) (l : list A) :
  for_each f (map g l) = for_each (fun a => f (g a)) l.
Proof. induction l as [|a l IH]; simpl; [reflexivity | now rewrite IH]. Qed.

Lemma for_each_lookup {A B} (f : A -> result B) (l : list A) (bs : list B) :
  for_each f l = Ok bs ->
  length bs = length l
  /\ forall i a, l !! i = Some a -> exists b, bs !! i = Some b /\ f a = Ok b.
Proof.
  revert bs. induction l as [|a l IH]; intros bs H; simpl in H.
  - injection H as <-. split; [reflexivity | intros i a H; discriminate].
  - destruct (f a) as [b|] eqn:Eb; [|discriminate]. simpl in H.
    destruct (for_each f l) as [bs'|] eqn:Ebs; [|discriminate].
    injection H as <-. destruct (IH bs' eq_refl) as [Hl Hi].
    split; [simpl; now rewrite Hl|].
    intros [|i] a' Ha'; simpl in *.
    + injection Ha' as <-. now exists b.
    + now apply Hi.
Qed.

Section InterpolatorFacts.

Variable ray_first : Trimesh -> vec3 -> Z.
Variable mesh2d : Trimesh.
Variable nodes_values : list Q.

Lemma interpolate_step_at (fis : list Z) (ps : list vec2) (c index fi : Z)
  (p : vec2) (acc : list Np.float) :
  getitem fis index = Ok fi ->
  getitem ps c = Ok p ->
  interpolate_step mesh2d nodes_values fis ps (c, acc) index
  = let! v := interpolate_at mesh2d nodes_values fi p in
    Ok ((c + 1)%Z, acc ++ [v]).
Proof.
  intros Hfi Hp. unfold interpolate_step, interpolate_at.
  rewrite Hfi. simpl.
  destruct (getitem (faces mesh2d) fi) as [[[a b] d]|]; simpl; [|reflexivity].
  destruct (getitem (vertices mesh2d) a); simpl; [|reflexivity].
  destruct (getitem (vertices mesh2d) b); simpl; [|reflexivity].
  destruct (getitem (vertices mesh2d) d); simpl; [|reflexivity].
  rewrite Hp. simpl.
  destruct (getitem nodes_values a); simpl; [|reflexivity].
  destruct (getitem nodes_values b); simpl; [|reflexivity].
  destruct (getitem nodes_values d); simpl; reflexivity.
Qed.

Lemma interpolate_loop (rest_f : list Z) :
  forall (done_f : list Z) (done_p rest_p : list vec2) (acc : list Np.float),
  length done_f = length done_p ->
  length rest_f = length rest_p ->
  for_fold (interpolate_step mesh2d nodes_values (done_f ++ rest_f)
                             (done_p ++ rest_p))
           (map Z.of_nat (seq (length done_f) (length rest_f)))
           (Z.of_nat (length done_f), acc)
  = let! vs := for_each (fun fp => interpolate_at mesh2d nodes_values fp.1 fp.2)
                        (zip rest_f rest_p) in
    Ok (Z.of_nat (length done_f + length rest_f), acc ++ vs).
Proof.
  induction rest_f as [|f rest_f IH]; intros done_f done_p rest_p acc Hd Hr.
  - simpl. now rewrite Nat.add_0_r, app_nil_r.
  - destruct rest_p as [|p rest_p]; [discriminate|].
    simpl length. simpl seq. simpl map. simpl for_fold.
    rewrite (interpolate_step_at _ _ _ _ f p).
    2:{ apply getitem_nat. now apply list_lookup_middle. }
    2:{ apply getitem_nat. now apply list_lookup_middle. }
    simpl zip_with. simpl for_each.
    destruct (interpolate_at mesh2d nodes_values f p) as [v|e]; simpl;
      [|reflexivity].
    specialize (IH (done_f ++ [f]) (done_p ++ [p]) rest_p (acc ++ [v])).
    rewrite <- !app_assoc, !length_app in IH. simpl in IH.
    rewrite Nat.add_1_r in IH.
    replace (Z.of_nat (length done_f) + 1)%Z
      with (Z.of_nat (S (length done_f))) by lia.
    rewrite IH by (simpl in Hr; lia).
    destruct (for_each _ _) as [vs|e]; simpl; [|reflexivity].
    rewrite <- app_assoc. simpl. do 3 f_equal. lia.
Qed.

(** The whole call, point by point: what it leaves in the caller's array,
    which rays it casts, and the values it returns. *)
Lemma interpolate_pointCloud_spec (pts : list vec3) :
  interpolate_pointCloud ray_first pts mesh2d nodes_values
  = mkOutcome (map (effective_point ray_first mesh2d) pts)
              (pts :: map (fun p => [add_eps p])
                          (List.filter (missed ray_first mesh2d) pts))
              (for_each (value_of_point ray_first mesh2d nodes_values) pts).
Proof.
  unfold interpolate_pointCloud. rewrite locate_spec. simpl.
  f_equal. unfold Py.range.
  pose proof (interpolate_loop (map (final_face ray_first mesh2d) pts) [] []
                (map (fun p : vec3 => p.1)
                     (map (effective_point ray_first mesh2d) pts)) []) as H.
  simpl in H. change (Z.of_nat 0) with 0%Z in H.
  rewrite H by now rewrite ?length_map.
  rewrite map_map, zip_columns, for_each_map. unfold value_of_point.
  destruct (for_each _ pts); reflexivity.
Qed.

End InterpolatorFacts.

(** ** Interpolation at the corners of a triangle *)

Section Corners_of_a_triangle.

Variables a b c : vec2.
Variables v0 v1 v2 : Q.

Hypothesis nondegenerate :
  ~ dot (vsub b a) (a.2 - c.2, c.1 - a.1) == 0.

Lemma nondegenerate' : ~ dot (vsub c a) (a.2 - b.2, b.1 - a.1) == 0.
Proof.
  rewrite divisors_opposite. intros H. apply nondegenerate.
  rewrite <- (Qopp_involutive (dot _ _)), H. reflexivity.
Qed.

Lemma barycentric_value_finite (p : vec2) :
  barycentric_value p a b c v0 v1 v2
  = Np.Fin ((1 - dot (vsub p a) (a.2 - c.2, c.1 - a.1)
                 / dot (vsub b a) (a.2 - c.2, c.1 - a.1)
               - dot (vsub p a) (a.2 - b.2, b.1 - a.1)
                 / dot (vsub c a) (a.2 - b.2, b.1 - a.1)) * v0
            + dot (vsub p a) (a.2 - c.2, c.1 - a.1)
              / dot (vsub b a) (a.2 - c.2, c.1 - a.1) * v1
            + dot (vsub p a) (a.2 - b.2, b.1 - a.1)
              / dot (vsub c a) (a.2 - b.2, b.1 - a.1) * v2).
Proof.
  unfold barycentric_value, getBarycentricCoord. cbv zeta.
  rewrite (Np_div_finite _ _ nondegenerate), (Np_div_finite _ _ nondegenerate').
  reflexivity.
Qed.

Lemma barycentric_value_corner (w : nat) :
  barycentric_value (pick w (a, b, c)) a b c v0 v1 v2
  =f= Np.Fin (pick w (v0, v1, v2)).
Proof.
  rewrite barycentric_value_finite. simpl.
  pose proof nondegenerate as H1. pose proof nondegenerate' as H2.
  revert H1 H2.
  destruct a as [ax ay], b as [bx by_], c as [cx cy].
  unfold dot, vsub. simpl. intros H1 H2.
  destruct w as [|[|w]]; simpl; field; split; assumption.
Qed.

End Corners_of_a_triangle.

(** ** interpolate_pointCloud *)

Lemma getitem_raises {A} (l : list A) (i : Z) (e : exn) :
  getitem l i = Raise e -> e = IndexError.
Proof.
  unfold getitem. destruct (_ && _)%bool; [|congruence].
  destruct (l !! _); [discriminate | congruence].
Qed.

Lemma for_each_raises {A B} (f : A -> result B) (e0 e : exn) (l : list A) :
  (forall a e', f a = Raise e' -> e' = e0) ->
  for_each f l = Raise e -> e = e0.
Proof.
  intros Hf. induction l as [|a l IH]; simpl; [discriminate|].
  destruct (f a) as [b|e'] eqn:Eb; simpl.
  - destruct (for_each f l); simpl; [discriminate|].
    intros [= <-]. now apply IH.
  - intros [= <-]. now apply (Hf a).
Qed.

Lemma interpolate_at_raises (mesh2d : Trimesh) (nodes_values : list Q)
  (fi : Z) (p : vec2) (e : exn) :
  interpolate_at mesh2d nodes_values fi p = Raise e -> e = IndexError.
Proof.
  unfold interpolate_at.
  repeat match goal with
         | |- context [getitem ?l ?i] =>
             let E := fresh "E" in
             destruct (getitem l i) eqn:E; simpl;
             [| intros [= <-]; eapply getitem_raises; eassumption]
         end.
  discriminate.
Qed.

(** On a mesh that keeps the data-model invariant, any face the array
    access reaches yields a value. *)
Lemma interpolate_at_ok (mesh2d : Trimesh) (nodes_values : list Q)
  (fi : Z) (f : Z * Z * Z) (p : vec2) :
  faces_in_bounds mesh2d ->
  length nodes_values = length (vertices mesh2d) ->
  getitem (faces mesh2d) fi = Ok f ->
  exists A B C v0 v1 v2,
    vertices mesh2d !! Z.to_nat f.1.1 = Some A
    /\ vertices mesh2d !! Z.to_nat f.1.2 = Some B
    /\ vertices mesh2d !! Z.to_nat f.2 = Some C
    /\ nodes_values !! Z.to_nat f.1.1 = Some v0
    /\ nodes_values !! Z.to_nat f.1.2 = Some v1
    /\ nodes_values !! Z.to_nat f.2 = Some v2
    /\ interpolate_at mesh2d nodes_values fi p
       = Ok (barycentric_value p A.1 B.1 C.1 v0 v1 v2).
Proof.
  intros Hb Hl Hf.
  assert (Hin : In f (faces mesh2d)).
  { unfold getitem in Hf. destruct (_ && _)%bool; [|discriminate].
    destruct (faces mesh2d !! _) as [f'|] eqn:E; [|discriminate].
    injection Hf as ->.
    apply list_elem_of_In, list_elem_of_lookup. eauto. }
  unfold faces_in_bounds in Hb. rewrite List.Forall_forall in Hb.
  destruct (Hb f Hin) as (H0 & H1 & H2).
  destruct (getitem_in_range (vertices mesh2d) f.1.1 H0) as (A & LA & EA).
  destruct (getitem_in_range (vertices mesh2d) f.1.2 H1) as (B & LB & EB).
  destruct (getitem_in_range (vertices mesh2d) f.2 H2) as (C & LC & EC).
  rewrite <- Hl in H0, H1, H2.
  destruct (getitem_in_range nodes_values f.1.1 H0) as (v0 & L0 & E0).
  destruct (getitem_in_range nodes_values f.1.2 H1) as (v1 & L1 & E1).
  destruct (getitem_in_range nodes_values f.2 H2) as (v2 & L2 & E2).
  exists A, B, C, v0, v1, v2. repeat (split; [assumption|]).
  unfold interpolate_at. rewrite Hf. simpl.
  rewrite EA, EB, EC. simpl. rewrite E0, E1, E2. reflexivity.
Qed.

Lemma getitem_face (mesh2d : Trimesh) (fi : Z) :
  faces mesh2d <> [] ->
  (-1 <= fi < Z.of_nat (length (faces mesh2d)))%Z ->
  exists f, getitem (faces mesh2d) fi = Ok f
            /\ (fi = (-1)%Z -> last (faces mesh2d) = Some f).
Proof.
  intros Hne Hr. destruct (Z.eq_dec fi (-1)%Z) as [-> | Hn].
  - destruct (last (faces mesh2d)) as [f|] eqn:E.
    + exists f. split; [now apply getitem_last | reflexivity].
    + apply last_None in E. contradiction.
  - destruct (getitem_in_range (faces mesh2d) fi) as (f & _ & E); [lia|].
    exists f. split; [exact E | contradiction].
Qed.

(** The call returns when the mesh keeps the data-model invariant, there
    is one node value per vertex and the ray caster answers [-1] or a face
    index for the points at hand. *)
Lemma interpolate_pointCloud_returns
  (ray_first : Trimesh -> vec3 -> Z) (mesh2d : Trimesh)
  (nodes_values : list Q) (pts : list vec3) :
  faces mesh2d <> [] ->
  faces_in_bounds mesh2d ->
  length nodes_values = length (vertices mesh2d) ->
  (forall q, In q pts ->
     (-1 <= ray_first mesh2d q < Z.of_nat (length (faces mesh2d)))%Z
     /\ (-1 <= ray_first mesh2d (add_eps q)
         < Z.of_nat (length (faces mesh2d)))%Z) ->
  exists vals,
    out_values (interpolate_pointCloud ray_first pts mesh2d nodes_values)
    = Ok vals
    /\ forall i p, pts !! i = Some p ->
         exists val, vals !! i = Some val
           /\ value_of_point ray_first mesh2d nodes_values p = Ok val.
Proof.
  intros Hne Hb Hl Hray.
  rewrite interpolate_pointCloud_spec. cbn [out_values].
  destruct (for_each_ok (value_of_point ray_first mesh2d nodes_values)
              (fun _ _ => True) pts) as (vals & E & _).
  { intros p Hp. destruct (Hray p Hp) as [H1 H2].
    assert (Hf : (-1 <= final_face ray_first mesh2d p
                  < Z.of_nat (length (faces mesh2d)))%Z).
    { unfold final_face. destruct (missed ray_first mesh2d p); assumption. }
    destruct (getitem_face mesh2d _ Hne Hf) as (f & Ef & _).
    destruct (interpolate_at_ok mesh2d nodes_values _ f
                (effective_point ray_first mesh2d p).1 Hb Hl Ef)
      as (A & B & C & v0 & v1 & v2 & _ & _ & _ & _ & _ & _ & Ev).
    eexists. split; [exact Ev | exact I]. }
  exists vals. split; [exact E|].
  apply for_each_lookup in E. destruct E as [_ E]. exact E.
Qed.

(** C3, as the code behaves: on a mesh that keeps its invariant, a query
    point placed on a corner of a non-degenerate triangle and located in
    that triangle by the first ray cast gets, in the returned array, the
    node value stored for that corner. *)
Theorem interpolation_identity_at_vertices
  (ray_first : Trimesh -> vec3 -> Z) (mesh2d : Trimesh)
  (nodes_values : list Q) (pts : list vec3) (i k w : nat) (p : vec3)
  (f : Z * Z * Z) (A B C : vec3) (v0 v1 v2 : Q) :
  faces_in_bounds mesh2d ->
  length nodes_values = length (vertices mesh2d) ->
  (forall q, In q pts ->
     (-1 <= ray_first mesh2d q < Z.of_nat (length (faces mesh2d)))%Z
     /\ (-1 <= ray_first mesh2d (add_eps q)
         < Z.of_nat (length (faces mesh2d)))%Z) ->
  pts !! i = Some p ->
  ray_first mesh2d p = Z.of_nat k ->
  faces mesh2d !! k = Some f ->
  getitem (vertices mesh2d) f.1.1 = Ok A ->
  getitem (vertices mesh2d) f.1.2 = Ok B ->
  getitem (vertices mesh2d) f.2 = Ok C ->
  getitem nodes_values f.1.1 = Ok v0 ->
  getitem nodes_values f.1.2 = Ok v1 ->
  getitem nodes_values f.2 = Ok v2 ->
  ~ dot (vsub B.1 A.1) (A.1.2 - C.1.2, C.1.1 - A.1.1) == 0 ->
  p.1 = pick w (A.1, B.1, C.1) ->
  exists vals val,
    out_values (interpolate_pointCloud ray_first pts mesh2d nodes_values)
    = Ok vals
    /\ length vals = length pts
    /\ vals !! i = Some val
    /\ val =f= Np.Fin (pick w (v0, v1, v2)).
Proof.
  intros Hb Hl Hray Hp Hk Hf HA HB HC H0 H1 H2 Hnd Hw.
  assert (Hne : faces mesh2d <> []).
  { intros E. rewrite E in Hf. discriminate. }
  destruct (interpolate_pointCloud_returns ray_first mesh2d nodes_values pts
              Hne Hb Hl Hray) as (vals & E & Hvals).
  destruct (Hvals i p Hp) as (val & Hval & Ev).
  exists vals, val. split; [exact E|]. split.
  { rewrite interpolate_pointCloud_spec in E. cbn [out_values] in E.
    now apply for_each_lookup in E. }
  split; [exact Hval|].
  assert (Hm : missed ray_first mesh2d p = false).
  { unfold missed. rewrite Hk. apply Z.eqb_neq. lia. }
  unfold value_of_point, final_face, effective_point in Ev.
  rewrite Hm, Hk in Ev. unfold interpolate_at in Ev.
  rewrite (getitem_nat _ _ _ Hf) in Ev. cbn [Py.bind] in Ev.
  rewrite HA, HB, HC in Ev. cbn [Py.bind] in Ev.
  rewrite H0, H1, H2 in Ev. cbn [Py.bind] in Ev.
  injection Ev as <-. rewrite Hw.
  apply barycentric_value_corner. exact Hnd.
Qed.

(** The four corners of [two_triangles] as query points: the call returns
    four values, and corner 2 of face 0 gets its own node value. *)
Lemma interpolation_identity_at_vertices_witness :
  exists vals val,
    out_values (interpolate_pointCloud scan_ray_first
                  [(0, 0, -(1)); (2, 0, -(1)); (2, 1, -(1)); (0, 1, -(1))]
                  two_triangles [3; 5; 7; 9])
    = Ok vals
    /\ length vals = 4%nat
    /\ vals !! 2%nat = Some val
    /\ val =f= Np.Fin 7.
Proof.
  apply (interpolation_identity_at_vertices scan_ray_first two_triangles
           [3; 5; 7; 9]
           [(0, 0, -(1)); (2, 0, -(1)); (2, 1, -(1)); (0, 1, -(1))]
           2 0 2 (2, 1, -(1)) (0, 1, 2)%Z (0, 0, 0) (2, 0, 0) (2, 1, 0)
           3 5 7); try reflexivity.
  - repeat constructor; simpl; lia.
  - intros q [<- | [<- | [<- | [<- | []]]]]; vm_compute;
      repeat split; discriminate.
  - vm_compute. discriminate.
Defined.

(** A corner that only the retry locates is interpolated at the shifted
    point.  With a ray caster that misses points on edges and vertices,
    corner 0 of [two_triangles], stored value 7, is found in face 1 once
    shifted, and the call returns 7 - 7 eps for it. *)
Lemma interpolation_at_vertex_after_retry :
  scan_ray_first_open two_triangles (0, 0, -(1)) = (-1)%Z
  /\ scan_ray_first_open two_triangles (add_eps (0, 0, -(1))) = 1%Z
  /\ faces two_triangles !! 1%nat = Some (0, 2, 3)%Z
  /\ vertices two_triangles !! 0%nat = Some (0, 0, 0)
  /\ exists val,
       out_values (interpolate_pointCloud scan_ray_first_open
                     [(0, 0, -(1))] two_triangles [7; 0; 0; 0])
       = Ok [val]
       /\ val =f= Np.Fin (7 - 7 * eps)
       /\ ~ val =f= Np.Fin 7.
Proof.
  split; [reflexivity|]. split; [reflexivity|]. split; [reflexivity|].
  split; [reflexivity|].
  eexists. split; [vm_compute; reflexivity|].
  split; vm_compute; [reflexivity | discriminate].
Qed.



(** C5, as the code behaves: after the one batch cast, every point that was
    missed is shifted by eps = 0.0000925925925926 in each coordinate and
    one more ray is cast from the shifted point; what that cast returns
    becomes the face index of the point.  The call never ends in
    PointOutsideMeshError. *)
Theorem interpolate_pointCloud_one_retry
  (ray_first : Trimesh -> vec3 -> Z) (mesh2d : Trimesh)
  (nodes_values : list Q) (pts : list vec3) :
  let out := interpolate_pointCloud ray_first pts mesh2d nodes_values in
  let shifted := fun p : vec3 => (p.1.1 + eps, p.1.2 + eps, p.2 + eps) in
  out_queries out
  = pts :: map (fun p => [shifted p])
               (List.filter (fun p => (ray_first mesh2d p =? -1)%Z) pts)
  /\ face_indexes (locate ray_first mesh2d pts)
     = map (fun p => if (ray_first mesh2d p =? -1)%Z
                     then ray_first mesh2d (shifted p)
                     else ray_first mesh2d p) pts
  /\ eps == 925925925926 # 10000000000000000
  /\ out_values out <> Raise PointOutsideMeshError.
Proof.
  intros out shifted. unfold out.
  rewrite interpolate_pointCloud_spec, locate_spec.
  cbn [out_queries out_values face_indexes].
  split; [reflexivity|]. split; [reflexivity|]. split; [reflexivity|].
  intros H.
  apply (for_each_raises _ IndexError) in H; [discriminate|].
  intros p e. apply interpolate_at_raises.
Qed.

(** A point far from [two_triangles]: both casts miss, the call returns a
    value all the same, and that value is read off the face found at
    index [-1]. *)
Lemma interpolate_pointCloud_no_PointOutsideMeshError :
  scan_ray_first two_triangles (5, 5, -(1)) = (-1)%Z
  /\ scan_ray_first two_triangles (add_eps (5, 5, -(1))) = (-1)%Z
  /\ (exists v,
        out_values (interpolate_pointCloud scan_ray_first [(5, 5, -(1))]
                      two_triangles corner_values)
        = Ok [v]
        /\ interpolate_at two_triangles corner_values (-1) (5 + eps, 5 + eps)
           = Ok v)
  /\ out_values (interpolate_pointCloud scan_ray_first [(5, 5, -(1))]
                   two_triangles corner_values)
     <> Raise PointOutsideMeshError
  /\ 3 * 0.0000257 < eps.
Proof.
  split; [reflexivity|]. split; [reflexivity|]. split; [|split].
  - eexists. split; vm_compute; reflexivity.
  - vm_compute. discriminate.
  - reflexivity.
Qed.

(** C9: on a non-empty mesh that keeps the data-model invariant, with one
    node value per vertex and a ray caster that answers [-1] or a face
    index, the call returns one value per query point; a point missed by
    both casts is interpolated, at its shifted coordinates, against the
    last face of the mesh. *)
Theorem interpolate_pointCloud_miss_uses_last_face
  (ray_first : Trimesh -> vec3 -> Z) (mesh2d : Trimesh)
  (nodes_values : list Q) (pts : list vec3) :
  faces mesh2d <> [] ->
  faces_in_bounds mesh2d ->
  length nodes_values = length (vertices mesh2d) ->
  (forall p, In p pts ->
     (-1 <= ray_first mesh2d p < Z.of_nat (length (faces mesh2d)))%Z
     /\ (-1 <= ray_first mesh2d (add_eps p)
         < Z.of_nat (length (faces mesh2d)))%Z) ->
  exists vals,
    out_values (interpolate_pointCloud ray_first pts mesh2d nodes_values)
    = Ok vals
    /\ length vals = length pts
    /\ forall i p,
         pts !! i = Some p ->
         ray_first mesh2d p = (-1)%Z ->
         ray_first mesh2d (add_eps p) = (-1)%Z ->
         exists f A B C v0 v1 v2,
           face_indexes (locate ray_first mesh2d pts) !! i = Some (-1)%Z
           /\ last (faces mesh2d) = Some f
           /\ vertices mesh2d !! Z.to_nat f.1.1 = Some A
           /\ vertices mesh2d !! Z.to_nat f.1.2 = Some B
           /\ vertices mesh2d !! Z.to_nat f.2 = Some C
           /\ nodes_values !! Z.to_nat f.1.1 = Some v0
           /\ nodes_values !! Z.to_nat f.1.2 = Some v1
           /\ nodes_values !! Z.to_nat f.2 = Some v2
           /\ vals !! i
              = Some (barycentric_value (add_eps p).1 A.1 B.1 C.1 v0 v1 v2).
Proof.
  intros Hne Hb Hl Hray.
  rewrite interpolate_pointCloud_spec. cbn [out_values].
  assert (Hface : forall p, In p pts ->
            (-1 <= final_face ray_first mesh2d p
             < Z.of_nat (length (faces mesh2d)))%Z).
  { intros p Hp. destruct (Hray p Hp) as [H1 H2].
    unfold final_face. destruct (missed ray_first mesh2d p); assumption. }
  destruct (for_each_ok (value_of_point ray_first mesh2d nodes_values)
              (fun p v => value_of_point ray_first mesh2d nodes_values p = Ok v)
              pts) as (vals & E & Hvals).
  { intros p Hp.
    destruct (getitem_face mesh2d _ Hne (Hface p Hp)) as (f & Ef & _).
    destruct (interpolate_at_ok mesh2d nodes_values _ f
                (effective_point ray_first mesh2d p).1 Hb Hl Ef)
      as (A & B & C & v0 & v1 & v2 & _ & _ & _ & _ & _ & _ & Ev).
    eexists. split; exact Ev. }
  exists vals. split; [exact E|].
  split; [symmetry; eapply Forall2_length; exact Hvals|].
  intros i p Hp Hm1 Hm2.
  destruct (Forall2_lookup_l _ _ _ i p Hvals Hp) as (v & Hv & Ev).
  unfold value_of_point, final_face, effective_point, missed in Ev.
  rewrite Hm1, Z.eqb_refl in Ev. cbv iota in Ev. rewrite Hm2 in Ev.
  destruct (getitem_face mesh2d (-1)%Z Hne) as (f & Ef & Hlast).
  { destruct (faces mesh2d); [contradiction | simpl; lia]. }
  destruct (interpolate_at_ok mesh2d nodes_values _ f (add_eps p).1 Hb Hl Ef)
    as (A & B & C & v0 & v1 & v2 & HA & HB & HC & H0 & H1 & H2 & Ev').
  exists f, A, B, C, v0, v1, v2.
  split.
  { rewrite locate_spec. cbn [face_indexes].
    change (map ?g pts) with (g <$> pts). rewrite list_lookup_fmap, Hp.
    cbn [fmap option_fmap option_map]. unfold final_face, missed.
    now rewrite Hm1, Z.eqb_refl, Hm2. }
  repeat (split; [first [assumption | now apply Hlast]|]).
  rewrite Hv. congruence.
Qed.

(** The far point again, after a point inside the mesh: two values come
    back, the second one computed on the last face (0, 2, 3). *)
Lemma interpolate_pointCloud_miss_uses_last_face_witness :
  exists vals,
    out_values (interpolate_pointCloud scan_ray_first
                  [(1, 1 # 4, -(1)); (5, 5, -(1))]
                  two_triangles corner_values)
    = Ok vals
    /\ length vals = 2%nat
    /\ exists A B C v0 v1 v2,
         vals !! 1%nat
         = Some (barycentric_value (add_eps (5, 5, -(1))).1 A B C v0 v1 v2).
Proof.
  destruct (interpolate_pointCloud_miss_uses_last_face scan_ray_first
              two_triangles corner_values [(1, 1 # 4, -(1)); (5, 5, -(1))])
    as (vals & E & Hlen & Hmiss).
  - discriminate.
  - repeat constructor; simpl; lia.
  - reflexivity.
  - intros p [<- | [<- | []]]; vm_compute; repeat split; discriminate.
  - exists vals. split; [exact E|]. split; [exact Hlen|].
    destruct (Hmiss 1%nat (5, 5, -(1)) eq_refl eq_refl eq_refl)
      as (f & A & B & C & v0 & v1 & v2 & _ & _ & _ & _ & _ & _ & _ & _ & Hv).
    exists A.1, B.1, C.1, v0, v1, v2. exact Hv.
Defined.

(** On a mesh without faces the location failure does make the call raise:
    both casts miss, the index -1 is kept, and the access to the empty
    faces array raises IndexError. *)
Lemma interpolate_pointCloud_raises_without_faces :
  let mesh := mkTrimesh [(0, 0, 0); (1, 0, 0)] [] in
  scan_ray_first mesh (3, 3, -(1)) = (-1)%Z
  /\ scan_ray_first mesh (add_eps (3, 3, -(1))) = (-1)%Z
  /\ face_indexes (locate scan_ray_first mesh [(3, 3, -(1))]) = [(-1)%Z]
  /\ out_values (interpolate_pointCloud scan_ray_first [(3, 3, -(1))] mesh
                   [1; 2])
     = Raise IndexError.
Proof. repeat split. Qed.

(** ** The grid layout *)

Lemma product_length {A B} (x : list A) (y : list B) :
  length (product x y) = (length x * length y)%nat.
Proof.
  unfold product. induction x as [|a x IH]; simpl; [reflexivity|].
  now rewrite length_app, length_map, IH.
Qed.

(** Column-major generation: the point of x-index [c] and y-index [r] sits
    at position [c * len(y) + r]. *)
Lemma product_lookup {A B} (x : list A) (y : list B) (c r : nat) (xc : A)
  (yr : B) :
  x !! c = Some xc -> y !! r = Some yr ->
  product x y !! (c * length y + r)%nat = Some (xc, yr).
Proof.
  unfold product. revert c. induction x as [|a x IH]; intros c Hc Hr;
    [discriminate|].
  simpl flat_map. destruct c as [|c]; simpl in Hc.
  - injection Hc as ->. simpl. rewrite lookup_app_l.
    + change (map ?f y) with (f <$> y). now rewrite list_lookup_fmap, Hr.
    + rewrite length_map. now apply lookup_lt_Some in Hr.
  - rewrite lookup_app_r by (rewrite length_map; simpl; lia).
    rewrite length_map.
    replace (S c * length y + r - length y)%nat with (c * length y + r)%nat
      by (simpl; lia).
    now apply IH.
Qed.

Lemma column_of_rows {A} (r c : nat) : forall (a : list A) (i j : nat),
  length a = (r * c)%nat -> (i < r)%nat -> (j < c)%nat ->
  omap (fun row : list A => row !! j) (rows_of r c a) !! i
  = a !! (i * c + j)%nat.
Proof.
  induction r as [|r IH]; intros a i j Hlen Hi Hj; [lia|].
  simpl rows_of. simpl omap.
  assert (Hrow : take c a !! j = a !! j) by now apply lookup_take_lt.
  destruct (lookup_lt_is_Some_2 a j) as [x Hx]; [simpl in Hlen; lia|].
  rewrite Hrow, Hx. destruct i as [|i]; simpl.
  - now rewrite Hx.
  - rewrite IH; [| rewrite length_drop; simpl in Hlen; lia | lia | lia].
    rewrite lookup_drop. f_equal. lia.
Qed.

Lemma column_of_rows_length {A} (r c : nat) : forall (a : list A) (j : nat),
  length a = (r * c)%nat -> (j < c)%nat ->
  length (omap (fun row : list A => row !! j) (rows_of r c a)) = r.
Proof.
  induction r as [|r IH]; intros a j Hlen Hj; [reflexivity|].
  simpl rows_of. simpl omap.
  destruct (lookup_lt_is_Some_2 (take c a) j) as [x Hx].
  { rewrite length_take. simpl in Hlen. lia. }
  rewrite Hx. simpl. f_equal. apply IH; [|exact Hj].
  rewrite length_drop. simpl in Hlen. lia.
Qed.

Lemma transpose_lookup {A} (c j : nat) (M : list (list A)) :
  (j < c)%nat ->
  transpose c M !! j = Some (omap (fun row : list A => row !! j) M).
Proof.
  intros Hj. unfold transpose.
  change (map ?f ?l) with (f <$> l).
  now rewrite list_lookup_fmap, lookup_seq_lt.
Qed.

Lemma product_not_nil {A B} (x : list A) (y : list B) :
  x <> [] -> y <> [] -> product x y <> [].
Proof.
  destruct x as [|a x]; [contradiction|].
  destruct y as [|b y]; [contradiction|]. discriminate.
Qed.

Lemma sample_axes_points
  (ray_first : Trimesh -> vec3 -> Z) (mesh2d : Trimesh)
  (nodes_values : list Q) (x y : list Q) :
  product x y <> [] ->
  sample_axes ray_first mesh2d nodes_values x y
  = (let pts := map (fun p : Q * Q => (p.1, p.2, - (1))) (product x y) in
     let! interpolated_values :=
       out_values (interpolate_pointCloud ray_first pts mesh2d nodes_values) in
     let! interpolated_values :=
       reshape interpolated_values (length x) (length y) in
     Ok (transpose (length y) interpolated_values)).
Proof.
  intros H. unfold sample_axes. cbv zeta.
  destruct (product x y); [contradiction | reflexivity].
Qed.

(** C4: the points of the grid are generated x outer, y inner; the value
    array of interpolate_pointCloud answers them position by position;
    and after reshape(Ncolumn, Nrow).T the entry [row][col] of the
    (Nrow, Ncolumn) array is the value of the point of x-index col and
    y-index row.  The two axes are not empty: with an empty one the call
    does not return. *)
Theorem sample_axes_layout
  (ray_first : Trimesh -> vec3 -> Z) (mesh2d : Trimesh)
  (nodes_values : list Q) (x y : list Q) (vals : list Np.float) :
  let pts := map (fun p : Q * Q => (p.1, p.2, - (1))) (product x y) in
  x <> [] -> y <> [] ->
  out_values (interpolate_pointCloud ray_first pts mesh2d nodes_values)
  = Ok vals ->
  exists grid,
    sample_axes ray_first mesh2d nodes_values x y = Ok grid
    /\ length grid = length y
    /\ forall row col xc yr,
         x !! col = Some xc -> y !! row = Some yr ->
         pts !! (col * length y + row)%nat = Some (xc, yr, - (1))
         /\ exists val,
              vals !! (col * length y + row)%nat = Some val
              /\ value_of_point ray_first mesh2d nodes_values (xc, yr, - (1))
                 = Ok val
              /\ exists line,
                   grid !! row = Some line
                   /\ length line = length x
                   /\ line !! col = Some val.
Proof.
  intros pts Hx0 Hy0 Hvals.
  rewrite sample_axes_points by now apply product_not_nil.
  cbv zeta. fold pts. rewrite Hvals.
  rewrite interpolate_pointCloud_spec in Hvals. cbn [out_values] in Hvals.
  apply for_each_lookup in Hvals. destruct Hvals as [Hlen Hvals].
  assert (Hsize : length vals = (length x * length y)%nat).
  { rewrite Hlen. unfold pts. now rewrite length_map, product_length. }
  cbn [Py.bind]. unfold reshape.
  rewrite (proj2 (Nat.eqb_eq _ _) Hsize). cbn [Py.bind].
  eexists. split; [reflexivity|].
  split; [unfold transpose; now rewrite length_map, length_seq|].
  intros row col xc yr Hx Hy.
  assert (Hp : pts !! (col * length y + row)%nat = Some (xc, yr, - (1))).
  { unfold pts. change (map ?f ?l) with (f <$> l).
    now rewrite list_lookup_fmap, (product_lookup x y col row xc yr). }
  split; [exact Hp|].
  destruct (Hvals _ _ Hp) as (val & Hval & E).
  exists val. split; [exact Hval|]. split; [exact E|].
  pose proof (lookup_lt_Some _ _ _ Hx) as Hc.
  pose proof (lookup_lt_Some _ _ _ Hy) as Hr.
  eexists. split; [apply transpose_lookup, Hr|].
  split; [now apply column_of_rows_length|].
  rewrite column_of_rows by assumption. exact Hval.
Qed.

(** The 2 x 2 grid on the corners of [two_triangles] with node values
    0, 0, 0, 10: the entry of row 1 (y = 1), column 0 (x = 0) is 10. *)
Lemma sample_axes_layout_witness :
  exists grid line val,
    sample_axes scan_ray_first two_triangles corner_values [0; 2] [0; 1]
    = Ok grid
    /\ grid !! 1%nat = Some line /\ line !! 0%nat = Some val
    /\ value_of_point scan_ray_first two_triangles corner_values (0, 1, -(1))
       = Ok val
    /\ val =f= Np.Fin 10.
Proof.
  destruct (out_values (interpolate_pointCloud scan_ray_first
              (map (fun p : Q * Q => (p.1, p.2, - (1))) (product [0; 2] [0; 1]))
              two_triangles corner_values)) as [vals|e] eqn:E;
    [|vm_compute in E; discriminate].
  destruct (sample_axes_layout scan_ray_first two_triangles corner_values
              [0; 2] [0; 1] vals) as (grid & Eg & _ & H);
    [discriminate | discriminate | exact E |].
  destruct (H 1%nat 0%nat 0 1 eq_refl eq_refl)
    as (_ & val & _ & Ev & line & Hl & _ & Hc).
  exists grid, line, val. repeat (split; [assumption|]).
  vm_compute in Ev. injection Ev as <-. vm_compute. reflexivity.
Defined.

(** ** The inscribed rectangle *)

Lemma fold_max_spec (l : list Q) : forall x : Q,
  let m := fold_left (fun m y => if Qle_bool y m then m else y) l x in
  In m (x :: l) /\ x <= m /\ forall y, In y l -> y <= m.
Proof.
  induction l as [|y l IH]; intros x; simpl.
  - split; [now left|]. split; [apply Qle_refl | intros y []].
  - destruct (IH (if Qle_bool y x then x else y)) as (Hin & Hle & Hall).
    destruct (Qle_bool y x) eqn:E.
    + apply Qle_bool_iff in E. split; [|split].
      * destruct Hin as [<- | Hin]; [now left | right; now right].
      * exact Hle.
      * intros z [<- | Hz]; [eapply Qle_trans; eassumption | now apply Hall].
    + assert (Hxy : x <= y).
      { apply Qlt_le_weak, Qnot_le_lt. intros H.
        apply Qle_bool_iff in H. congruence. }
      split; [|split].
      * destruct Hin as [<- | Hin]; [right; now left | right; now right].
      * eapply Qle_trans; eassumption.
      * intros z [<- | Hz]; [exact Hle | now apply Hall].
Qed.

Lemma fold_min_spec (l : list Q) : forall x : Q,
  let m := fold_left (fun m y => if Qle_bool m y then m else y) l x in
  In m (x :: l) /\ m <= x /\ forall y, In y l -> m <= y.
Proof.
  induction l as [|y l IH]; intros x; simpl.
  - split; [now left|]. split; [apply Qle_refl | intros y []].
  - destruct (IH (if Qle_bool x y then x else y)) as (Hin & Hle & Hall).
    destruct (Qle_bool x y) eqn:E.
    + apply Qle_bool_iff in E. split; [|split].
      * destruct Hin as [<- | Hin]; [now left | right; now right].
      * exact Hle.
      * intros z [<- | Hz]; [eapply Qle_trans; eassumption | now apply Hall].
    + assert (Hxy : y <= x).
      { apply Qlt_le_weak, Qnot_le_lt. intros H.
        apply Qle_bool_iff in H. congruence. }
      split; [|split].
      * destruct Hin as [<- | Hin]; [right; now left | right; now right].
      * eapply Qle_trans; eassumption.
      * intros z [<- | Hz]; [exact Hle | now apply Hall].
Qed.

Lemma py_max_spec (l : list Q) :
  l <> [] -> exists m, py_max l = Ok m /\ is_max_of m l.
Proof.
  destruct l as [|x l]; [contradiction|]. intros _.
  eexists. split; [reflexivity|].
  destruct (fold_max_spec l x) as (Hin & Hle & Hall).
  split; [exact Hin|]. intros y [<- | Hy]; [exact Hle | now apply Hall].
Qed.

Lemma py_min_spec (l : list Q) :
  l <> [] -> exists m, py_min l = Ok m /\ is_min_of m l.
Proof.
  destruct l as [|x l]; [contradiction|]. intros _.
  eexists. split; [reflexivity|].
  destruct (fold_min_spec l x) as (Hin & Hle & Hall).
  split; [exact Hin|]. intros y [<- | Hy]; [exact Hle | now apply Hall].
Qed.

Lemma zip_replicate_r {A B} (x : list A) (b : B) :
  zip x (replicate (length x) b) = map (fun a => (a, b)) x.
Proof. induction x as [|a x IH]; simpl; [reflexivity | now rewrite IH]. Qed.

Lemma zip_replicate_l {A B} (a : A) (y : list B) :
  zip (replicate (length y) a) y = map (fun b => (a, b)) y.
Proof. induction y as [|b y IH]; simpl; [reflexivity | now rewrite IH]. Qed.

(** A unit-step partition of a proper interval is not empty, starts at the
    lower end, advances by 1 and stays below the upper end. *)
Lemma np_arange_unit (lo hi : Q) :
  lo < hi ->
  np_arange lo hi 1 <> []
  /\ forall k xk, np_arange lo hi 1 !! k = Some xk ->
       xk = lo + inject_Z (Z.of_nat k) * 1 /\ lo <= xk /\ xk < hi.
Proof.
  intros Hlt. unfold np_arange.
  assert (Hd : (hi - lo) / 1 == hi - lo) by (field; discriminate).
  set (n := Qceiling ((hi - lo) / 1)).
  assert (Hn : (0 < n)%Z).
  { assert (H0 : 0 < inject_Z n).
    { eapply Qlt_le_trans; [|apply Qle_ceiling]. rewrite Hd.
      apply (Qplus_lt_l _ _ lo). ring_simplify. exact Hlt. }
    rewrite (Zlt_Qlt 0 n). exact H0. }
  split.
  - destruct (Z.to_nat n) eqn:E; [lia | discriminate].
  - intros k xk Hk.
    change (map ?f ?l) with (f <$> l) in Hk.
    rewrite list_lookup_fmap in Hk.
    destruct (seq 0 (Z.to_nat n) !! k) as [j|] eqn:Ej; [|discriminate].
    apply lookup_seq in Ej. destruct Ej as [-> Hj]. simpl in Hk.
    injection Hk as <-. split; [reflexivity|].
    assert (Hk0 : 0 <= inject_Z (Z.of_nat k)).
    { unfold Qle. simpl. lia. }
    assert (Hk1 : inject_Z (Z.of_nat k) < hi - lo).
    { apply Qle_lt_trans with (inject_Z (n - 1)).
      - unfold Qle. simpl. lia.
      - rewrite <- Hd. apply Qceiling_lt. }
    split; lra.
Qed.

Lemma transform_row (T : Q -> Q -> Q * Q) (x : list Q) (c : Q) :
  transform_arrays T x (replicate (length x) c)
  = (map (fun a => (T a c).1) x, map (fun a => (T a c).2) x).
Proof.
  unfold transform_arrays. now rewrite zip_replicate_r, !map_map.
Qed.

Lemma transform_column (T : Q -> Q -> Q * Q) (c : Q) (y : list Q) :
  transform_arrays T (replicate (length y) c) y
  = (map (fun b => (T c b).1) y, map (fun b => (T c b).2) y).
Proof.
  unfold transform_arrays. now rewrite zip_replicate_l, !map_map.
Qed.

Lemma map_not_nil {A B} (f : A -> B) (l : list A) : l <> [] -> map f l <> [].
Proof. destruct l; [contradiction | discriminate]. Qed.







(** * Further properties of the code *)

(** ** Barycentric coordinates and the interpolated value *)

(** X1: On a non-degenerate triangle the three coordinates returned by
    getBarycentricCoord rebuild the query point:
    alpha * A + beta * B + gamma * C = p, in both components. *)
Theorem barycentric_rebuilds_point (p A B C : vec2) :
  ~ dot (vsub B A) (A.2 - C.2, C.1 - A.1) == 0 ->
  exists alpha beta gamma : Q,
    getBarycentricCoord p A B C = (Np.Fin alpha, Np.Fin beta, Np.Fin gamma)
    /\ alpha * A.1 + beta * B.1 + gamma * C.1 == p.1
    /\ alpha * A.2 + beta * B.2 + gamma * C.2 == p.2.
Proof.
  intros Hnd. pose proof (nondegenerate' A B C Hnd) as Hnd'.
  unfold getBarycentricCoord. cbv zeta.
  rewrite (Np_div_finite _ _ Hnd), (Np_div_finite _ _ Hnd').
  eexists _, _, _. split; [reflexivity|].
  revert Hnd Hnd'.
  destruct p as [px py], A as [ax ay], B as [bx by_], C as [cx cy].
  unfold dot, vsub. simpl. intros H1 H2.
  split; field; split; assumption.
Qed.

Lemma barycentric_rebuilds_point_witness :
  exists alpha beta gamma : Q,
    getBarycentricCoord (1, 1 # 4) (0, 0) (2, 0) (2, 1)
    = (Np.Fin alpha, Np.Fin beta, Np.Fin gamma)
    /\ alpha * 0 + beta * 2 + gamma * 2 == 1
    /\ alpha * 0 + beta * 0 + gamma * 1 == 1 # 4.
Proof.
  apply (barycentric_rebuilds_point (1, 1 # 4) (0, 0) (2, 0) (2, 1)).
  vm_compute. discriminate.
Defined.

(** X2: On a triangle of zero area both divisors vanish: the three
    coordinates and the interpolated value are non-finite, and nothing is
    raised. *)
Theorem degenerate_triangle_non_finite (p A B C : vec2) (v0 v1 v2 : Q) :
  dot (vsub B A) (A.2 - C.2, C.1 - A.1) == 0 ->
  getBarycentricCoord p A B C = (Np.NonFinite, Np.NonFinite, Np.NonFinite)
  /\ barycentric_value p A B C v0 v1 v2 = Np.NonFinite.
Proof.
  intros Hz.
  assert (Hz' : dot (vsub C A) (A.2 - B.2, B.1 - A.1) == 0).
  { rewrite divisors_opposite, Hz. reflexivity. }
  assert (E : getBarycentricCoord p A B C
              = (Np.NonFinite, Np.NonFinite, Np.NonFinite)).
  { unfold getBarycentricCoord. cbv zeta. unfold Np.div.
    rewrite (proj2 (Qeq_bool_iff _ _) Hz), (proj2 (Qeq_bool_iff _ _) Hz').
    reflexivity. }
  split; [exact E|]. unfold barycentric_value. rewrite E. reflexivity.
Qed.

(** Three collinear vertices. *)
Lemma degenerate_triangle_non_finite_witness :
  barycentric_value (1, 1) (0, 0) (1, 1) (2, 2) 5 6 7 = Np.NonFinite.
Proof.
  apply (degenerate_triangle_non_finite (1, 1) (0, 0) (1, 1) (2, 2) 5 6 7).
  reflexivity.
Defined.

(** X3: The interpolation is exact on affine fields: when the three node
    values are [a * x + b * y + c] at the three vertices of a
    non-degenerate triangle, the interpolated value at any point p is
    [a * p.x + b * p.y + c]. *)
Theorem interpolation_exact_on_affine_fields
  (p A B C : vec2) (v0 v1 v2 a b c : Q) :
  ~ dot (vsub B A) (A.2 - C.2, C.1 - A.1) == 0 ->
  v0 == a * A.1 + b * A.2 + c ->
  v1 == a * B.1 + b * B.2 + c ->
  v2 == a * C.1 + b * C.2 + c ->
  barycentric_value p A B C v0 v1 v2 =f= Np.Fin (a * p.1 + b * p.2 + c).
Proof.
  intros Hnd H0 H1 H2. pose proof (nondegenerate' A B C Hnd) as Hnd'.
  rewrite (barycentric_value_finite A B C v0 v1 v2 Hnd). simpl.
  rewrite H0, H1, H2. clear H0 H1 H2. revert Hnd Hnd'.
  destruct p as [px py], A as [ax ay], B as [bx by_], C as [cx cy].
  unfold dot, vsub. simpl. intros H1 H2.
  field; split; assumption.
Qed.

(** The field x + 2 y + 3 on the first face of [two_triangles]. *)
Lemma interpolation_exact_on_affine_fields_witness :
  barycentric_value (1, 1 # 4) (0, 0) (2, 0) (2, 1) 3 5 7
  =f= Np.Fin (1 * 1 + 2 * (1 # 4) + 3).
Proof.
  apply (interpolation_exact_on_affine_fields
           (1, 1 # 4) (0, 0) (2, 0) (2, 1) 3 5 7 1 2 3);
    try reflexivity.
  vm_compute. discriminate.
Defined.

(** X4: When the three coordinates are non-negative (the point lies in the
    triangle) the interpolated value stays between the smallest and the
    largest of the three node values. *)
Theorem interpolation_within_node_values
  (p A B C : vec2) (v0 v1 v2 lo hi alpha beta gamma : Q) :
  getBarycentricCoord p A B C = (Np.Fin alpha, Np.Fin beta, Np.Fin gamma) ->
  0 <= alpha -> 0 <= beta -> 0 <= gamma ->
  lo <= v0 <= hi -> lo <= v1 <= hi -> lo <= v2 <= hi ->
  exists q, barycentric_value p A B C v0 v1 v2 = Np.Fin q /\ lo <= q <= hi.
Proof.
  intros E Ha Hb Hc [L0 U0] [L1 U1] [L2 U2].
  assert (Hsum : alpha == 1 - beta - gamma).
  { unfold getBarycentricCoord in E. cbv zeta in E.
    injection E as E1 E2 E3. rewrite E2, E3 in E1. simpl in E1.
    injection E1 as <-. reflexivity. }
  unfold barycentric_value. rewrite E. simpl.
  eexists. split; [reflexivity|]. split; nra.
Qed.

Lemma interpolation_within_node_values_witness :
  exists q,
    barycentric_value (1 # 4, 1 # 4) (0, 0) (1, 0) (0, 1) 3 5 7 = Np.Fin q
    /\ 3 <= q <= 7.
Proof.
  eapply (interpolation_within_node_values (1 # 4, 1 # 4) (0, 0) (1, 0) (0, 1)
            3 5 7 3 7).
  - vm_compute. reflexivity.
  - vm_compute. discriminate.
  - vm_compute. discriminate.
  - vm_compute. discriminate.
  - split; vm_compute; discriminate.
  - split; vm_compute; discriminate.
  - split; vm_compute; discriminate.
Defined.

(** ** Node values: bounds, zero areas, the time index *)

Lemma assign_nodes_values_length
  (ReadData : string -> list (list Q)) (area_faces : Trimesh -> list Q)
  (vertex_faces : Trimesh -> list (list Z))
  (m : Trimesh) (variable : string) (instant : Z) (arr : list Np.float) :
  assign_nodes_values ReadData area_faces vertex_faces m variable instant
  = Ok arr ->
  length arr = length (vertices m).
Proof.
  unfold assign_nodes_values. intros H.
  destruct (for_each _ _) as [ys|] eqn:E; [|discriminate].
  simpl in H. injection H as <-.
  apply for_each_lookup in E. destruct E as [E _].
  now rewrite length_map, E, range_length.
Qed.

Lemma assign_nodes_values_entries
  (ReadData : string -> list (list Q)) (area_faces : Trimesh -> list Q)
  (vertex_faces : Trimesh -> list (list Z))
  (m : Trimesh) (variable : string) (instant : Z) (row : list Q) :
  vertex_faces_spec vertex_faces m ->
  length (area_faces m) = length (faces m) ->
  getitem (ReadData variable) instant = Ok row ->
  length row = length (faces m) ->
  (forall v, (v < length (vertices m))%nat -> incident_faces m v <> []) ->
  exists arr,
    assign_nodes_values ReadData area_faces vertex_faces m variable instant
    = Ok arr
    /\ forall v, (v < length (vertices m))%nat ->
         exists x, arr !! v = Some x
           /\ x =f= area_weighted_mean (area_faces m) row (incident_faces m v).
Proof.
  intros Hvf Harea Hrow Hlen Hinc. unfold assign_nodes_values.
  destruct (for_each_ok
              (node_value vertex_faces m (area_faces m) (ReadData variable)
                          instant)
              (fun z y => to_np y
                 =f= area_weighted_mean (area_faces m) row
                       (incident_faces m (Z.to_nat z)))
              (Py.range (length (vertices m)))) as (ys & E & Hys).
  { intros z Hz. apply range_In in Hz. destruct Hz as (v & -> & Hv).
    destruct (node_value_mean ReadData area_faces vertex_faces m variable
                instant row Hvf Harea Hrow Hlen v Hv (Hinc v Hv))
      as (x & Ex & Hx).
    exists (NpScalar x). rewrite Nat2Z.id. split; [exact Ex | exact Hx]. }
  rewrite E. cbn [Py.bind]. eexists. split; [reflexivity|].
  intros v Hv.
  destruct (Forall2_lookup_l _ _ _ v _ Hys (range_lookup _ _ Hv))
    as (y & Ey & Hy).
  rewrite Nat2Z.id in Hy. exists (to_np y). split; [|exact Hy].
  change (map to_np ys) with (to_np <$> ys).
  now rewrite list_lookup_fmap, Ey.
Qed.

Lemma weighted_sum_bounds (area sample : nat -> Q) (lo hi : Q) (fs : list nat) :
  (forall f, In f fs -> 0 <= area f /\ lo <= sample f <= hi) ->
  lo * sumQ (map area fs) <= sumQ (map (fun f => area f * sample f) fs)
  /\ sumQ (map (fun f => area f * sample f) fs) <= hi * sumQ (map area fs).
Proof.
  induction fs as [|f fs IH]; intros H; simpl.
  - split; lra.
  - destruct (H f) as (Ha & Hl & Hu); [now left|].
    destruct IH as [IH1 IH2]; [intros; apply H; now right|].
    split; nra.
Qed.

(** X5: With non-negative areas of positive sum, the node value lies between
    the smallest and the largest sample of the incident faces. *)
Theorem node_value_within_samples
  (ReadData : string -> list (list Q)) (area_faces : Trimesh -> list Q)
  (vertex_faces : Trimesh -> list (list Z))
  (m : Trimesh) (variable : string) (instant : Z) (row : list Q)
  (v : nat) (lo hi : Q) :
  vertex_faces_spec vertex_faces m ->
  length (area_faces m) = length (faces m) ->
  getitem (ReadData variable) instant = Ok row ->
  length row = length (faces m) ->
  (forall w, (w < length (vertices m))%nat -> incident_faces m w <> []) ->
  (v < length (vertices m))%nat ->
  (forall f, In f (incident_faces m v) ->
     0 <= nth f (area_faces m) 0 /\ lo <= nth f row 0 <= hi) ->
  0 < sumQ (map (fun f => nth f (area_faces m) 0) (incident_faces m v)) ->
  exists arr q,
    assign_nodes_values ReadData area_faces vertex_faces m variable instant
    = Ok arr
    /\ arr !! v = Some (Np.Fin q)
    /\ lo <= q <= hi.
Proof.
  intros Hvf Harea Hrow Hlen Hinc Hv Hfs Hpos.
  destruct (assign_nodes_values_entries ReadData area_faces vertex_faces m
              variable instant row Hvf Harea Hrow Hlen Hinc) as (arr & E & Hm).
  destruct (Hm v Hv) as (x & Ex & Hx).
  destruct (weighted_sum_bounds (fun f => nth f (area_faces m) 0)
              (fun f => nth f row 0) lo hi _ Hfs) as [Hl Hu].
  unfold area_weighted_mean in Hx.
  rewrite Np_div_finite in Hx by lra.
  destruct x as [q|]; [|contradiction]. simpl in Hx.
  exists arr, q. split; [exact E|]. split; [exact Ex|].
  rewrite Hx. split.
  - apply Qle_shift_div_l; [exact Hpos | exact Hl].
  - apply Qle_shift_div_r; [exact Hpos | exact Hu].
Qed.

Lemma node_value_within_samples_witness :
  exists arr q,
    assign_nodes_values ten_twenty unit_areas vertex_faces_table
                        two_triangles "u3" 0
    = Ok arr
    /\ arr !! 2%nat = Some (Np.Fin q) /\ 10 <= q <= 20.
Proof.
  apply (node_value_within_samples ten_twenty unit_areas vertex_faces_table
           two_triangles "u3" 0 [10; 20] 2 10 20).
  - apply vertex_faces_table_spec.
  - reflexivity.
  - reflexivity.
  - reflexivity.
  - intros w Hw. simpl in Hw.
    destruct w as [|[|[|[|w]]]]; try (vm_compute; discriminate). lia.
  - simpl. lia.
  - intros f [<- | [<- | []]]; vm_compute; repeat split; discriminate.
  - reflexivity.
Defined.

(** X6: A vertex whose incident faces have areas summing to zero gets a
    non-finite node value: the division is numpy's and raises nothing, so
    the value is stored in the array like any other. *)
Theorem node_value_zero_area_non_finite
  (ReadData : string -> list (list Q)) (area_faces : Trimesh -> list Q)
  (vertex_faces : Trimesh -> list (list Z))
  (m : Trimesh) (variable : string) (instant : Z) (row : list Q) (v : nat) :
  vertex_faces_spec vertex_faces m ->
  length (area_faces m) = length (faces m) ->
  getitem (ReadData variable) instant = Ok row ->
  length row = length (faces m) ->
  (forall w, (w < length (vertices m))%nat -> incident_faces m w <> []) ->
  (v < length (vertices m))%nat ->
  sumQ (map (fun f => nth f (area_faces m) 0) (incident_faces m v)) == 0 ->
  exists arr,
    assign_nodes_values ReadData area_faces vertex_faces m variable instant
    = Ok arr
    /\ arr !! v = Some Np.NonFinite.
Proof.
  intros Hvf Harea Hrow Hlen Hinc Hv Hzero.
  destruct (assign_nodes_values_entries ReadData area_faces vertex_faces m
              variable instant row Hvf Harea Hrow Hlen Hinc) as (arr & E & Hm).
  destruct (Hm v Hv) as (x & Ex & Hx).
  unfold area_weighted_mean, Np.div in Hx.
  rewrite (proj2 (Qeq_bool_iff _ _) Hzero) in Hx.
  destruct x as [q|]; [contradiction|].
  exists arr. split; [exact E | exact Ex].
Qed.

Lemma node_value_zero_area_non_finite_witness :
  exists arr,
    assign_nodes_values ten_twenty (fun m => replicate (length (faces m)) 0)
                        vertex_faces_table two_triangles "u3" 0
    = Ok arr
    /\ arr !! 1%nat = Some Np.NonFinite.
Proof.
  apply (node_value_zero_area_non_finite ten_twenty
           (fun m => replicate (length (faces m)) 0) vertex_faces_table
           two_triangles "u3" 0 [10; 20] 1).
  - apply vertex_faces_table_spec.
  - reflexivity.
  - reflexivity.
  - reflexivity.
  - intros w Hw. simpl in Hw.
    destruct w as [|[|[|[|w]]]]; try (vm_compute; discriminate). lia.
  - simpl. lia.
  - reflexivity.
Defined.

Lemma for_fold_ext {S A} (f g : S -> A -> result S) (l : list A) (s : S) :
  (forall s a, f s a = g s a) -> for_fold f l s = for_fold g l s.
Proof.
  intros H. revert s. induction l as [|a l IH]; intros s; simpl;
    [reflexivity|].
  rewrite H. destruct (g s a); simpl; [apply IH | reflexivity].
Qed.

Lemma for_each_ext {A B} (f g : A -> result B) (l : list A) :
  (forall a, In a l -> f a = g a) -> for_each f l = for_each g l.
Proof.
  induction l as [|a l IH]; intros H; simpl; [reflexivity|].
  rewrite (H a) by now left. rewrite IH; [reflexivity|].
  intros; apply H; now right.
Qed.

Lemma getitem_negative {A} (l : list A) (k : Z) :
  (1 <= k <= Z.of_nat (length l))%Z ->
  getitem l (- k) = getitem l (Z.of_nat (length l) - k).
Proof.
  intros Hk. unfold getitem.
  destruct (Z.ltb_spec (- k) 0); [|lia].
  destruct (Z.ltb_spec (Z.of_nat (length l) - k) 0); [lia|].
  replace (Z.of_nat (length l) + - k)%Z with (Z.of_nat (length l) - k)%Z by lia.
  reflexivity.
Qed.

(** X7: The instant is a numpy index: a negative one counts from the last
    time step, so [-1] selects the last instant of the table and is not
    rejected. *)
Theorem assign_nodes_values_negative_instant
  (ReadData : string -> list (list Q)) (area_faces : Trimesh -> list Q)
  (vertex_faces : Trimesh -> list (list Z))
  (m : Trimesh) (variable : string) (k : Z) :
  (1 <= k <= Z.of_nat (length (ReadData variable)))%Z ->
  assign_nodes_values ReadData area_faces vertex_faces m variable (- k)
  = assign_nodes_values ReadData area_faces vertex_faces m variable
      (Z.of_nat (length (ReadData variable)) - k).
Proof.
  intros Hk. unfold assign_nodes_values. f_equal.
  apply for_each_ext. intros i _. unfold node_value.
  destruct (getitem (vertex_faces m) i); [|reflexivity]. cbn [Py.bind].
  f_equal. apply for_fold_ext. intros st f. unfold accumulate.
  now rewrite (getitem_negative _ k Hk).
Qed.

Lemma assign_nodes_values_negative_instant_witness :
  assign_nodes_values ten_twenty unit_areas vertex_faces_table two_triangles
                      "u3" (- (1))
  = assign_nodes_values ten_twenty unit_areas vertex_faces_table two_triangles
      "u3" (1 - 1).
Proof.
  apply (assign_nodes_values_negative_instant ten_twenty unit_areas
           vertex_faces_table two_triangles "u3" 1).
  simpl. lia.
Defined.

(** X8: An instant outside the table makes the first face access of the first
    vertex raise IndexError. *)
Theorem assign_nodes_values_instant_out_of_range
  (ReadData : string -> list (list Q)) (area_faces : Trimesh -> list Q)
  (vertex_faces : Trimesh -> list (list Z))
  (m : Trimesh) (variable : string) (instant : Z) :
  vertex_faces_spec vertex_faces m ->
  length (area_faces m) = length (faces m) ->
  vertices m <> [] ->
  incident_faces m 0 <> [] ->
  (instant < - Z.of_nat (length (ReadData variable))
   \/ Z.of_nat (length (ReadData variable)) <= instant)%Z ->
  assign_nodes_values ReadData area_faces vertex_faces m variable instant
  = Raise IndexError.
Proof.
  intros Hvf Harea Hne Hinc Hout. unfold assign_nodes_values.
  destruct (vertices m) as [|v0 vs] eqn:Ev; [contradiction|].
  assert (H0 : (0 < length (vertices m))%nat) by (rewrite Ev; simpl; lia).
  simpl length. unfold Py.range. simpl seq. simpl map. simpl for_each.
  assert (E : node_value vertex_faces m (area_faces m) (ReadData variable)
                instant (Z.of_nat 0) = Raise IndexError).
  { unfold node_value.
    destruct (lookup_lt_is_Some_2 (vertex_faces m) 0) as [rowv Erow].
    { destruct Hvf as [-> _]. exact H0. }
    rewrite (getitem_nat _ _ _ Erow). cbn [Py.bind].
    destruct (shared_faces_nat vertex_faces m Hvf 0 rowv Erow) as [Enat Hperm].
    rewrite Enat.
    destruct (map Z.to_nat (List.filter (fun k => negb (k =? -1)%Z) rowv))
      as [|k ks] eqn:Eks.
    { apply Permutation_nil in Hperm. congruence. }
    assert (Hk : (k < length (faces m))%nat).
    { apply (incident_faces_lt m 0), (Permutation_in _ Hperm). now left. }
    simpl map. simpl for_fold. unfold accumulate at 1.
    rewrite (getitem_nat _ _ (nth k (area_faces m) 0))
      by (apply lookup_nth; lia).
    cbn [Py.bind].
    assert (Ei : getitem (ReadData variable) instant = Raise IndexError).
    { unfold getitem.
      destruct (instant <? 0)%Z eqn:En.
      - apply Z.ltb_lt in En.
        destruct (Z.leb_spec 0 (Z.of_nat (length (ReadData variable)) + instant));
          [lia | reflexivity].
      - apply Z.ltb_ge in En.
        destruct (Z.ltb_spec instant (Z.of_nat (length (ReadData variable))));
          [lia|]. now rewrite andb_false_r. }
    rewrite Ei. reflexivity. }
  change 0%Z with (Z.of_nat 0). rewrite E. reflexivity.
Qed.

Lemma assign_nodes_values_instant_out_of_range_witness :
  assign_nodes_values ten_twenty unit_areas vertex_faces_table two_triangles
                      "u3" 1
  = Raise IndexError.
Proof.
  apply (assign_nodes_values_instant_out_of_range ten_twenty unit_areas
           vertex_faces_table two_triangles "u3" 1).
  - apply vertex_faces_table_spec.
  - reflexivity.
  - discriminate.
  - vm_compute. discriminate.
  - right. simpl. lia.
Defined.

(** ** Loading, flattening and reprojecting *)

Lemma mesh2dCRSconversion_unfold
  (from_crs : string -> string -> Q -> Q -> Q * Q)
  (mesh2d : Trimesh) (meshCRS : string) :
  mesh2dCRSconversion from_crs mesh2d meshCRS
  = mkTrimesh
      (map (fun v : vec3 =>
              ((from_crs meshCRS "epsg:4326"%string v.1.1 v.1.2).1,
               (from_crs meshCRS "epsg:4326"%string v.1.1 v.1.2).2, 0))
           (vertices mesh2d))
      (faces mesh2d).
Proof.
  unfold mesh2dCRSconversion. cbv zeta.
  rewrite transform_arrays_columns. cbn [fst snd].
  now rewrite zip_columns, !map_map.
Qed.

(** X9: The node values computed on the 3D mesh fit the reprojected 2D mesh:
    both are built from the same file, so the array has one entry per
    vertex of the reprojected mesh, whose faces, and hence the faces
    around each vertex, are those of the 3D mesh. *)
Theorem node_values_fit_reprojected_mesh
  (ReadGeometry : string -> list vec3) (ReadConnect : string -> list (Z * Z * Z))
  (ReadData : string -> list (list Q)) (area_faces : Trimesh -> list Q)
  (vertex_faces : Trimesh -> list (list Z))
  (from_crs : string -> string -> Q -> Q -> Q * Q)
  (path crs variable : string) (instant : Z) (arr : list Np.float) :
  let mesh3d := generateMesh3DfromSeissol ReadGeometry ReadConnect path in
  let mesh2d := generateMesh2DfromSeissol ReadGeometry ReadConnect path in
  let mesh2d_wgs := mesh2dCRSconversion from_crs mesh2d crs in
  assign_nodes_values ReadData area_faces vertex_faces mesh3d variable instant
  = Ok arr ->
  length arr = length (vertices mesh2d_wgs)
  /\ faces mesh2d_wgs = faces mesh3d
  /\ forall v, incident_faces mesh2d_wgs v = incident_faces mesh3d v.
Proof.
  intros mesh3d mesh2d mesh2d_wgs H.
  apply assign_nodes_values_length in H.
  unfold mesh2d_wgs. rewrite mesh2dCRSconversion_unfold.
  split; [|split; reflexivity].
  rewrite H. simpl. now rewrite !length_map.
Qed.

Lemma node_values_fit_reprojected_mesh_witness :
  exists arr,
    assign_nodes_values ten_twenty unit_areas vertex_faces_table
      (generateMesh3DfromSeissol (fun _ => vertices two_triangles)
                                 (fun _ => faces two_triangles) "out.xdmf")
      "u3" 0
    = Ok arr
    /\ length arr = 4%nat.
Proof.
  destruct (assign_nodes_values ten_twenty unit_areas vertex_faces_table
              (generateMesh3DfromSeissol (fun _ => vertices two_triangles)
                                         (fun _ => faces two_triangles)
                                         "out.xdmf")
              "u3" 0) as [arr|e] eqn:E; [|vm_compute in E; discriminate].
  exists arr. split; [reflexivity|].
  destruct (node_values_fit_reprojected_mesh
              (fun _ => vertices two_triangles) (fun _ => faces two_triangles)
              ten_twenty unit_areas vertex_faces_table shear
              "out.xdmf" "utm" "u3" 0 arr E) as [Hl _].
  exact Hl.
Defined.

(** X10: The reprojection reads x and y only: the 3D mesh and its flattening
    have the same image.  Under a transform that leaves every pair as it
    is, the flattened mesh is returned unchanged. *)
Theorem mesh2dCRSconversion_of_flattened
  (ReadGeometry : string -> list vec3) (ReadConnect : string -> list (Z * Z * Z))
  (from_crs : string -> string -> Q -> Q -> Q * Q) (path crs : string) :
  let mesh3d := generateMesh3DfromSeissol ReadGeometry ReadConnect path in
  let mesh2d := generateMesh2DfromSeissol ReadGeometry ReadConnect path in
  mesh2dCRSconversion from_crs mesh3d crs
  = mesh2dCRSconversion from_crs mesh2d crs
  /\ ((forall x y, from_crs crs "epsg:4326"%string x y = (x, y)) ->
      mesh2dCRSconversion from_crs mesh2d crs = mesh2d).
Proof.
  intros mesh3d mesh2d. rewrite !mesh2dCRSconversion_unfold.
  unfold mesh3d, mesh2d, generateMesh3DfromSeissol, generateMesh2DfromSeissol.
  cbn [vertices faces]. rewrite !map_map. cbn [fst snd]. split.
  - reflexivity.
  - intros Hid. f_equal. apply map_ext. intros [[x y] z].
    cbn [fst snd]. now rewrite Hid.
Qed.

Lemma mesh2dCRSconversion_of_flattened_witness :
  let mesh2d := generateMesh2DfromSeissol
                  (fun _ => [(1, 2, 3); (4, 5, 6)]) (fun _ => [])
                  "out.xdmf" in
  mesh2dCRSconversion (fun _ _ x y => (x, y)) mesh2d "epsg:4326" = mesh2d.
Proof.
  apply (proj2 (mesh2dCRSconversion_of_flattened
                  (fun _ => [(1, 2, 3); (4, 5, 6)]) (fun _ => [])
                  (fun _ _ x y => (x, y)) "out.xdmf" "epsg:4326")).
  reflexivity.
Defined.

(** ** interpolate_pointCloud: failures and repeated calls *)

(** X12: On a mesh without faces any query point makes the call raise
    IndexError, whatever the ray caster answers. *)
Theorem interpolate_pointCloud_empty_mesh
  (ray_first : Trimesh -> vec3 -> Z) (mesh2d : Trimesh)
  (nodes_values : list Q) (pts : list vec3) :
  faces mesh2d = [] ->
  pts <> [] ->
  out_values (interpolate_pointCloud ray_first pts mesh2d nodes_values)
  = Raise IndexError.
Proof.
  intros Hf Hp. rewrite interpolate_pointCloud_spec. cbn [out_values].
  destruct pts as [|p pts]; [contradiction|]. simpl for_each.
  unfold value_of_point at 1. unfold interpolate_at. rewrite Hf.
  assert (E : forall i, getitem (@nil (Z * Z * Z)) i = Raise IndexError).
  { intros i. unfold getitem.
    destruct (_ && _)%bool; [|reflexivity]. now rewrite lookup_nil. }
  rewrite E. reflexivity.
Qed.

Lemma interpolate_pointCloud_empty_mesh_witness :
  out_values (interpolate_pointCloud scan_ray_first [(0, 0, -(1))]
                (mkTrimesh [(0, 0, 0)] []) [1])
  = Raise IndexError.
Proof.
  apply interpolate_pointCloud_empty_mesh; [reflexivity | discriminate].
Defined.

Section RepeatedCalls.

Variable ray_first : Trimesh -> vec3 -> Z.
Variable mesh2d : Trimesh.

Let eff := effective_point ray_first mesh2d.

Lemma effective_point_settled (p : vec3) :
  (ray_first mesh2d p = (-1)%Z -> ray_first mesh2d (add_eps p) <> (-1)%Z) ->
  missed ray_first mesh2d (eff p) = false
  /\ eff (eff p) = eff p
  /\ final_face ray_first mesh2d (eff p) = final_face ray_first mesh2d p.
Proof.
  intros H. unfold eff, effective_point, final_face.
  destruct (missed ray_first mesh2d p) eqn:Hm.
  - assert (Hm' : missed ray_first mesh2d (add_eps p) = false).
    { unfold missed in *. apply Z.eqb_eq in Hm. apply Z.eqb_neq. now apply H. }
    rewrite Hm'. now repeat split.
  - rewrite Hm. now repeat split.
Qed.

End RepeatedCalls.

(** X13: When every missed point is found once shifted, a second call on the
    array the first call left behind changes nothing more: it casts no
    retry ray, leaves the array as it is and returns the values of the
    first call. *)
Theorem interpolate_pointCloud_second_call
  (ray_first : Trimesh -> vec3 -> Z) (mesh2d : Trimesh)
  (nodes_values : list Q) (pts : list vec3) :
  (forall p, In p pts -> ray_first mesh2d p = (-1)%Z ->
             ray_first mesh2d (add_eps p) <> (-1)%Z) ->
  let first := interpolate_pointCloud ray_first pts mesh2d nodes_values in
  let second :=
    interpolate_pointCloud ray_first (out_points first) mesh2d nodes_values in
  out_points second = out_points first
  /\ out_queries second = [out_points first]
  /\ out_values second = out_values first.
Proof.
  intros H first second. unfold second, first.
  rewrite !interpolate_pointCloud_spec. cbn [out_points out_queries out_values].
  split; [|split].
  - rewrite map_map. apply map_ext_in. intros p Hp.
    apply effective_point_settled. now apply H.
  - f_equal.
    assert (E : List.filter (missed ray_first mesh2d)
                  (map (effective_point ray_first mesh2d) pts) = []).
    { clear second first. induction pts as [|p l IH]; [reflexivity|].
      simpl.
      destruct (effective_point_settled ray_first mesh2d p) as [-> _].
      { apply H. now left. }
      apply IH. intros q Hq. apply H. now right. }
    now rewrite E.
  - rewrite for_each_map. apply for_each_ext. intros p Hp.
    unfold value_of_point.
    destruct (effective_point_settled ray_first mesh2d p) as (_ & -> & ->);
      [now apply H | reflexivity].
Qed.

Lemma interpolate_pointCloud_second_call_witness :
  let pts := [(1, 1 # 4, -(1)); (- eps, 1 # 2, -(1))] in
  let first :=
    interpolate_pointCloud scan_ray_first pts two_triangles corner_values in
  out_points (interpolate_pointCloud scan_ray_first (out_points first)
                two_triangles corner_values)
  = out_points first.
Proof.
  intros pts first.
  apply (interpolate_pointCloud_second_call scan_ray_first two_triangles
           corner_values pts).
  intros p [<- | [<- | []]]; vm_compute; discriminate.
Defined.

(** X14: A point that every cast misses drifts: each call on the same array
    moves it by eps once more, so after one call per node-value array it
    sits at its original coordinates plus the number of calls times eps. *)
Theorem points_after_calls_drift
  (ray_first : Trimesh -> vec3 -> Z) (mesh2d : Trimesh)
  (arrays : list (list Q)) : forall (pts : list vec3) (i : nat) (p : vec3),
  pts !! i = Some p ->
  (forall k, (k < length arrays)%nat ->
             ray_first mesh2d (Nat.iter k add_eps p) = (-1)%Z) ->
  exists q,
    points_after_calls ray_first mesh2d pts arrays !! i = Some q
    /\ q = Nat.iter (length arrays) add_eps p
    /\ q.1.1 == p.1.1 + inject_Z (Z.of_nat (length arrays)) * eps
    /\ q.1.2 == p.1.2 + inject_Z (Z.of_nat (length arrays)) * eps
    /\ q.2 == p.2 + inject_Z (Z.of_nat (length arrays)) * eps.
Proof.
  unfold points_after_calls.
  induction arrays as [|nv arrays IH]; intros pts i p Hp Hmiss.
  - exists p. simpl. split; [exact Hp|]. split; [reflexivity|].
    repeat split; ring.
  - cbn [fold_left]. rewrite interpolate_pointCloud_spec. cbn [out_points].
    assert (Hi : map (effective_point ray_first mesh2d) pts !! i
                 = Some (add_eps p)).
    { change (map ?g pts) with (g <$> pts).
      rewrite list_lookup_fmap, Hp. cbn [fmap option_fmap option_map].
      unfold effective_point, missed.
      pose proof (Hmiss 0%nat ltac:(simpl; lia)) as H0. simpl in H0.
      now rewrite H0. }
    destruct (IH _ i (add_eps p) Hi) as (q & Eq & Hq & H1 & H2 & H3).
    { intros k Hk. rewrite <- Nat.iter_succ_r. apply Hmiss. simpl. lia. }
    exists q. split; [exact Eq|].
    split; [now rewrite Hq, <- Nat.iter_succ_r|].
    simpl length. rewrite Nat2Z.inj_succ.
    unfold Z.succ. rewrite inject_Z_plus.
    unfold add_eps in H1, H2, H3. cbn [fst snd] in H1, H2, H3.
    rewrite H1, H2, H3. repeat split; ring.
Qed.

(** Three calls on a point far from the mesh. *)
Lemma points_after_calls_drift_witness :
  exists q,
    points_after_calls scan_ray_first two_triangles [(5, 5, -(1))]
                       [corner_values; corner_values; corner_values] !! 0%nat
    = Some q
    /\ q.1.1 == 5 + 3 * eps.
Proof.
  destruct (points_after_calls_drift scan_ray_first two_triangles
              [corner_values; corner_values; corner_values]
              [(5, 5, -(1))] 0 (5, 5, -(1)) eq_refl)
    as (q & Eq & _ & H1 & _).
  - intros k Hk. simpl in Hk.
    destruct k as [|[|[|k]]]; [reflexivity | reflexivity | reflexivity | lia].
  - exists q. split; [exact Eq|]. rewrite H1. reflexivity.
Defined.

(** ** bisect_left and get_values_inside_rectangle *)

Lemma Qlt_bool_iff (a b : Q) : Qlt_bool a b = true <-> a < b.
Proof.
  unfold Qlt_bool. rewrite negb_true_iff. split.
  - intros H. apply Qnot_le_lt. intros Hle.
    apply Qle_bool_iff in Hle. congruence.
  - intros H. destruct (Qle_bool b a) eqn:E; [|reflexivity].
    apply Qle_bool_iff in E. exfalso. apply (Qlt_not_le _ _ H E).
Qed.

Lemma bisect_loop_spec (a : list Q) (x : Q) (lo hi : nat) :
  ascending a ->
  (lo <= hi)%nat -> (hi <= length a)%nat ->
  (forall i vi, (i < lo)%nat -> a !! i = Some vi -> vi < x) ->
  (forall i vi, (hi <= i)%nat -> a !! i = Some vi -> x <= vi) ->
  (lo <= bisect_loop a x lo hi <= hi)%nat
  /\ (forall i vi, (i < bisect_loop a x lo hi)%nat -> a !! i = Some vi ->
                   vi < x)
  /\ (forall i vi, (bisect_loop a x lo hi <= i)%nat -> a !! i = Some vi ->
                   x <= vi).
Proof.
  funelim (bisect_loop a x lo hi); intros Hasc Hle Hhi Hbelow Habove.
  - (* lo >= hi *)
    split; [lia|]. split; [assumption|].
    intros i vi Hi. apply Habove. lia.
  - (* a[mid] missing: excluded by hi <= len(a) *)
    exfalso.
    assert (Hmid : ((lo + hi) / 2 < length a)%nat).
    { pose proof (Nat.div_mod_eq (lo + hi) 2).
      pose proof (Nat.mod_upper_bound (lo + hi) 2 ltac:(discriminate)). lia. }
    apply lookup_lt_is_Some_2 in Hmid. destruct Hmid as [v Hv]. congruence.
  - (* a[mid] < x *)
    assert (Hmid : (lo <= (lo + hi) / 2 < hi)%nat).
    { pose proof (Nat.div_mod_eq (lo + hi) 2).
      pose proof (Nat.mod_upper_bound (lo + hi) 2 ltac:(discriminate)). lia. }
    match goal with
    | IH : ascending _ -> _ |- _ =>
        destruct IH as (Hr & Hb & Ha); [assumption | lia | assumption | |
                                        assumption |]
    end.
    + intros i vi Hi Hvi. apply Qle_lt_trans with v.
      * apply (Hasc i ((lo + hi) / 2)%nat); [lia | assumption | assumption].
      * now apply Qlt_bool_iff.
    + split; [lia|]. split; assumption.
  - (* not a[mid] < x *)
    assert (Hmid : (lo <= (lo + hi) / 2 < hi)%nat).
    { pose proof (Nat.div_mod_eq (lo + hi) 2).
      pose proof (Nat.mod_upper_bound (lo + hi) 2 ltac:(discriminate)). lia. }
    match goal with
    | IH : ascending _ -> _ |- _ =>
        destruct IH as (Hr & Hb & Ha); [assumption | lia | lia | assumption | |]
    end.
    + intros i vi Hi Hvi. apply Qle_trans with v.
      * apply Qnot_lt_le. intros Hlt. apply Qlt_bool_iff in Hlt. congruence.
      * apply (Hasc ((lo + hi) / 2)%nat i); [lia | assumption | assumption].
    + split; [lia|]. split; assumption.
Qed.

(** ** np.arange with a positive step *)

Lemma np_arange_lookup (start stop step : Q) (k : nat) (xk : Q) :
  np_arange start stop step !! k = Some xk ->
  xk = start + inject_Z (Z.of_nat k) * step
  /\ (Z.of_nat k < Qceiling ((stop - start) / step))%Z.
Proof.
  unfold np_arange. intros Hk.
  change (map ?f ?l) with (f <$> l) in Hk.
  rewrite list_lookup_fmap in Hk.
  destruct (seq 0 _ !! k) as [j|] eqn:Ej; [|discriminate].
  apply lookup_seq in Ej. destruct Ej as [-> Hj]. simpl in Hk.
  injection Hk as <-. split; [reflexivity | lia].
Qed.

(** For a positive step the partition starts at [start], advances by
    [step], stays below [stop], is ascending, and is empty exactly when
    [stop <= start]. *)
Lemma np_arange_positive_step (start stop step : Q) :
  0 < step ->
  (forall k xk, np_arange start stop step !! k = Some xk ->
     xk = start + inject_Z (Z.of_nat k) * step /\ start <= xk /\ xk < stop)
  /\ ascending (np_arange start stop step)
  /\ (stop <= start -> np_arange start stop step = [])
  /\ (start < stop -> np_arange start stop step <> []).
Proof.
  intros Hstep.
  assert (Hk : forall k xk, np_arange start stop step !! k = Some xk ->
     xk = start + inject_Z (Z.of_nat k) * step /\ start <= xk /\ xk < stop).
  { intros k xk Hk. apply np_arange_lookup in Hk. destruct Hk as [-> Hlt].
    split; [reflexivity|].
    assert (H0 : 0 <= inject_Z (Z.of_nat k)) by (unfold Qle; simpl; lia).
    assert (H1 : inject_Z (Z.of_nat k) < (stop - start) / step).
    { apply Qle_lt_trans
        with (inject_Z (Qceiling ((stop - start) / step) - 1)).
      - unfold Qle. simpl. lia.
      - apply Qceiling_lt. }
    assert (H2 : inject_Z (Z.of_nat k) * step < stop - start).
    { apply Qlt_le_trans with ((stop - start) / step * step).
      - apply Qmult_lt_compat_r; assumption.
      - apply Qle_lteq. right. field. lra. }
    split; nra. }
  split; [exact Hk|]. split; [|split].
  - intros i j vi vj Hij Hi Hj.
    apply np_arange_lookup in Hi, Hj. destruct Hi as [-> _], Hj as [-> _].
    assert (Hc : inject_Z (Z.of_nat i) <= inject_Z (Z.of_nat j))
      by (unfold Qle; simpl; lia).
    nra.
  - intros Hle. unfold np_arange.
    assert (Hc : (Qceiling ((stop - start) / step) <= 0)%Z).
    { rewrite <- (Qceiling_Z 0). apply Qceiling_resp_le.
      change (inject_Z 0) with 0.
      apply Qle_shift_div_r; [exact Hstep | lra]. }
    replace (Z.to_nat _) with 0%nat by lia. reflexivity.
  - intros Hlt. unfold np_arange.
    assert (Hc : (0 < Qceiling ((stop - start) / step))%Z).
    { assert (H0 : 0 < inject_Z (Qceiling ((stop - start) / step))).
      { eapply Qlt_le_trans; [|apply Qle_ceiling].
        apply Qlt_shift_div_l; [exact Hstep | lra]. }
      rewrite (Zlt_Qlt 0 _). exact H0. }
    destruct (Z.to_nat _) eqn:E; [lia | discriminate].
Qed.

(** A quarter-degree partition of [0, 1). *)
Lemma np_arange_positive_step_witness :
  ascending (np_arange 0 1 (1 # 4)) /\ np_arange 0 1 (1 # 4) <> [].
Proof.
  destruct (np_arange_positive_step 0 1 (1 # 4)) as (_ & Ha & _ & Hn);
    [reflexivity|].
  split; [exact Ha | apply Hn; reflexivity].
Defined.

(** ** The binary search on ascending axes *)

(** On an ascending array [bisect_left] returns the position that splits
    it: exactly the elements before it are smaller than the searched
    value. *)
Lemma bisect_left_splits (a : list Q) (x : Q) :
  ascending a ->
  (bisect_left a x <= length a)%nat
  /\ forall i vi, a !! i = Some vi -> ((i < bisect_left a x)%nat <-> vi < x).
Proof.
  intros Hasc. unfold bisect_left.
  destruct (bisect_loop_spec a x 0 (length a) Hasc) as (Hr & Hb & Ha);
    [lia | lia | intros; lia | |].
  { intros i vi Hi Hvi. apply lookup_lt_Some in Hvi. lia. }
  split; [lia|]. intros i vi Hvi. split.
  - intros Hi. now apply (Hb i).
  - intros Hlt.
    destruct (Nat.lt_ge_cases i (bisect_loop a x 0 (length a))) as [|Hge];
      [assumption|].
    exfalso. apply (Qlt_not_le _ _ Hlt). now apply (Ha i).
Qed.

Lemma bisect_left_splits_witness :
  (bisect_left (np_arange 0 5 1) (5 # 2) <= length (np_arange 0 5 1))%nat
  /\ forall i vi, np_arange 0 5 1 !! i = Some vi ->
       ((i < bisect_left (np_arange 0 5 1) (5 # 2))%nat <-> vi < 5 # 2).
Proof.
  apply bisect_left_splits.
  destruct (np_arange_positive_step 0 5 1) as (_ & Ha & _); [reflexivity|].
  exact Ha.
Defined.

Lemma slice_In {A} (a : list A) (i j : nat) (v : A) :
  In v (slice a i j)
  <-> exists n, (i <= n < j)%nat /\ a !! n = Some v.
Proof.
  unfold slice. rewrite <- list_elem_of_In, list_elem_of_lookup. split.
  - intros (k & Hk).
    destruct (Nat.lt_ge_cases k (j - i)) as [Hlt | Hge].
    + rewrite lookup_take_lt, lookup_drop in Hk by exact Hlt.
      exists (i + k)%nat. split; [lia | exact Hk].
    + rewrite lookup_take_ge in Hk by exact Hge. discriminate.
  - intros (n & Hn & Hv). exists (n - i)%nat.
    rewrite lookup_take_lt, lookup_drop by lia.
    now replace (i + (n - i))%nat with n by lia.
Qed.

Lemma slice_ascending (a : list Q) (i j : nat) :
  ascending a -> ascending (slice a i j).
Proof.
  intros Hasc k l vk vl Hkl Hk Hl. unfold slice in Hk, Hl.
  assert (Hk' : (k < j - i)%nat).
  { destruct (Nat.lt_ge_cases k (j - i)); [assumption|].
    rewrite lookup_take_ge in Hk by assumption. discriminate. }
  assert (Hl' : (l < j - i)%nat).
  { destruct (Nat.lt_ge_cases l (j - i)); [assumption|].
    rewrite lookup_take_ge in Hl by assumption. discriminate. }
  rewrite lookup_take_lt, lookup_drop in Hk, Hl by assumption.
  apply (Hasc (i + k)%nat (i + l)%nat); [lia | assumption | assumption].
Qed.

Lemma slice_between (a : list Q) (lo hi v : Q) :
  ascending a ->
  In v (slice a (bisect_left a lo) (bisect_left a hi))
  <-> In v a /\ lo <= v /\ v < hi.
Proof.
  intros Hasc.
  destruct (bisect_left_splits a lo Hasc) as [_ Hlo].
  destruct (bisect_left_splits a hi Hasc) as [_ Hhi].
  rewrite slice_In. split.
  - intros (n & [Hn1 Hn2] & Hv). split; [|split].
    + apply list_elem_of_In, list_elem_of_lookup. now exists n.
    + apply Qnot_lt_le. intros Hlt. apply (Hlo n v Hv) in Hlt. lia.
    + now apply (Hhi n v Hv).
  - intros (Hin & Hl & Hh).
    apply list_elem_of_In, list_elem_of_lookup in Hin.
    destruct Hin as (n & Hv). exists n. split; [|exact Hv]. split.
    + destruct (Nat.lt_ge_cases n (bisect_left a lo)) as [Hlt|]; [|assumption].
      apply (Hlo n v Hv) in Hlt. exfalso. apply (Qlt_not_le _ _ Hlt Hl).
    + now apply (Hhi n v Hv).
Qed.

(** X15: On ascending axes get_values_inside_rectangle keeps exactly the
    coordinates v with sw <= v < ne on each axis (a coordinate equal to
    the sw edge stays, one equal to the ne edge goes), in their order. *)
Theorem get_values_inside_rectangle_keeps (x y : list Q) (sw ne : vec2) :
  ascending x -> ascending y ->
  let out := get_values_inside_rectangle x y sw ne in
  (forall v, In v out.1 <-> In v x /\ sw.1 <= v /\ v < ne.1)
  /\ (forall v, In v out.2 <-> In v y /\ sw.2 <= v /\ v < ne.2)
  /\ ascending out.1 /\ ascending out.2.
Proof.
  intros Hx Hy out. unfold out, get_values_inside_rectangle. cbn [fst snd].
  split; [intros v; now apply slice_between|].
  split; [intros v; now apply slice_between|].
  split; now apply slice_ascending.
Qed.

(** The axes 0, 1, ..., 4 cut to the rectangle [1, 3) x [0, 2). *)
Lemma get_values_inside_rectangle_keeps_witness :
  get_values_inside_rectangle (np_arange 0 5 1) (np_arange 0 5 1)
                              (1, 0) (3, 2)
  = (slice (np_arange 0 5 1) 1 3, slice (np_arange 0 5 1) 0 2)
  /\ forall v,
       In v (get_values_inside_rectangle (np_arange 0 5 1) (np_arange 0 5 1)
                                         (1, 0) (3, 2)).1
       <-> In v (np_arange 0 5 1) /\ 1 <= v /\ v < 3.
Proof.
  split; [reflexivity|].
  destruct (get_values_inside_rectangle_keeps (np_arange 0 5 1)
              (np_arange 0 5 1) (1, 0) (3, 2)) as [H _].
  - destruct (np_arange_positive_step 0 5 1) as (_ & Ha & _); [reflexivity|].
    exact Ha.
  - destruct (np_arange_positive_step 0 5 1) as (_ & Ha & _); [reflexivity|].
    exact Ha.
  - exact H.
Defined.

(** ** The corner computation: degenerate boxes, separable transforms,
       the transformed corners *)

Lemma inscribed_corners_unfold
  (from_crs : string -> string -> Q -> Q -> Q * Q) (sw ne : vec2)
  (inputcrs : string) :
  let T := from_crs inputcrs "epsg:4326"%string in
  let xs := np_arange sw.1 ne.1 1 in
  let ys := np_arange sw.2 ne.2 1 in
  inscribed_corners from_crs sw ne inputcrs
  = (let! ymin := py_max (map (fun a => (T a sw.2).2) xs) in
     let! ymax := py_min (map (fun a => (T a ne.2).2) xs) in
     let! xmin := py_max (map (fun b => (T sw.1 b).1) ys) in
     let! xmax := py_min (map (fun b => (T ne.1 b).1) ys) in
     Ok ((xmin, ymin), (xmax, ymax))).
Proof.
  intros T xs ys. unfold inscribed_corners. cbv zeta. fold T xs ys.
  rewrite !transform_row, !transform_column. reflexivity.
Qed.

Lemma np_arange_unit_empty (lo hi : Q) : hi <= lo -> np_arange lo hi 1 = [].
Proof.
  intros H.
  destruct (np_arange_positive_step lo hi 1) as (_ & _ & He & _);
    [reflexivity | now apply He].
Qed.

(** X16: A bounding box without width or without height makes the corner
    computation raise ValueError: there is no sample to take an extreme
    of. *)
Theorem hysea_mesh_corners_flat_box
  (from_crs : string -> string -> Q -> Q -> Q * Q)
  (bounds : Trimesh -> vec3 * vec3) (mesh2d : Trimesh) (inputcrs : string) :
  let sw := (bounds mesh2d).1.1 in
  let ne := (bounds mesh2d).2.1 in
  ne.1 <= sw.1 \/ ne.2 <= sw.2 ->
  hysea_mesh_corners from_crs bounds mesh2d inputcrs = Raise ValueError.
Proof.
  intros sw ne H. unfold hysea_mesh_corners. fold sw ne.
  rewrite inscribed_corners_unfold. cbv zeta.
  destruct (Qlt_le_dec sw.1 ne.1) as [Hx | Hx].
  - destruct H as [H | H]; [exfalso; apply (Qlt_not_le _ _ Hx H)|].
    rewrite (np_arange_unit_empty sw.2 ne.2 H).
    destruct (np_arange_unit sw.1 ne.1 Hx) as [Hne _].
    destruct (py_max_spec (map (fun a =>
                (from_crs inputcrs "epsg:4326"%string a sw.2).2)
                (np_arange sw.1 ne.1 1))) as (m1 & -> & _);
      [now apply map_not_nil|].
    destruct (py_min_spec (map (fun a =>
                (from_crs inputcrs "epsg:4326"%string a ne.2).2)
                (np_arange sw.1 ne.1 1))) as (m2 & -> & _);
      [now apply map_not_nil|].
    reflexivity.
  - rewrite (np_arange_unit_empty sw.1 ne.1 Hx). reflexivity.
Qed.

(** A mesh whose vertices all share one x. *)
Lemma hysea_mesh_corners_flat_box_witness :
  hysea_mesh_corners shear (fun _ => ((1, 0, 0), (1, 3, 0))) two_triangles
                     "utm"
  = Raise ValueError.
Proof.
  apply (hysea_mesh_corners_flat_box shear (fun _ => ((1, 0, 0), (1, 3, 0)))
           two_triangles "utm").
  left. vm_compute. discriminate.
Defined.

Lemma py_max_constant {A} (c : Q) (l : list A) :
  l <> [] -> py_max (map (fun _ => c) l) = Ok c.
Proof.
  destruct l as [|a l]; [contradiction|]. intros _. simpl. f_equal.
  induction l as [|b l IH]; simpl; [reflexivity|].
  destruct (Qle_bool c c); exact IH.
Qed.

Lemma py_min_constant {A} (c : Q) (l : list A) :
  l <> [] -> py_min (map (fun _ => c) l) = Ok c.
Proof.
  destruct l as [|a l]; [contradiction|]. intros _. simpl. f_equal.
  induction l as [|b l IH]; simpl; [reflexivity|].
  destruct (Qle_bool c c); exact IH.
Qed.

(** X17: Under a transform that maps x and y separately (a change of units, a
    shift of the origin) the inscribed rectangle is the image of the two
    corners. *)
Theorem hysea_mesh_corners_separable
  (from_crs : string -> string -> Q -> Q -> Q * Q)
  (bounds : Trimesh -> vec3 * vec3) (mesh2d : Trimesh) (inputcrs : string)
  (f g : Q -> Q) :
  let sw := (bounds mesh2d).1.1 in
  let ne := (bounds mesh2d).2.1 in
  (forall x y, from_crs inputcrs "epsg:4326"%string x y = (f x, g y)) ->
  sw.1 < ne.1 ->
  sw.2 < ne.2 ->
  hysea_mesh_corners from_crs bounds mesh2d inputcrs
  = Ok ((f sw.1, g sw.2), (f ne.1, g ne.2)).
Proof.
  intros sw ne HT Hx Hy. unfold hysea_mesh_corners. fold sw ne.
  rewrite inscribed_corners_unfold. cbv zeta.
  destruct (np_arange_unit sw.1 ne.1 Hx) as [Hxs _].
  destruct (np_arange_unit sw.2 ne.2 Hy) as [Hys _].
  rewrite (map_ext _ (fun _ => g sw.2)) by (intros; now rewrite HT).
  rewrite (py_max_constant _ _ Hxs). cbn [Py.bind].
  rewrite (map_ext _ (fun _ => g ne.2)) by (intros; now rewrite HT).
  rewrite (py_min_constant _ _ Hxs). cbn [Py.bind].
  rewrite (map_ext _ (fun _ => f sw.1)) by (intros; now rewrite HT).
  rewrite (py_max_constant _ _ Hys). cbn [Py.bind].
  rewrite (map_ext _ (fun _ => f ne.1)) by (intros; now rewrite HT).
  rewrite (py_min_constant _ _ Hys). reflexivity.
Qed.

(** Metres to kilometres on both axes. *)
Lemma hysea_mesh_corners_separable_witness :
  hysea_mesh_corners (fun _ _ x y => (x / 1000, y / 1000)) box_2_1
                     two_triangles "utm"
  = Ok ((0 / 1000, 0 / 1000), (2 / 1000, 1 / 1000)).
Proof.
  apply (hysea_mesh_corners_separable (fun _ _ x y => (x / 1000, y / 1000))
           box_2_1 two_triangles "utm" (fun x => x / 1000)
           (fun y => y / 1000)); reflexivity.
Defined.

Lemma np_arange_unit_first (lo hi : Q) :
  lo < hi ->
  exists x0, In x0 (np_arange lo hi 1) /\ x0 == lo.
Proof.
  intros H. destruct (np_arange_unit lo hi H) as [Hne Hk].
  destruct (np_arange lo hi 1) as [|x0 l] eqn:E; [contradiction|].
  exists x0. split; [now left|].
  destruct (Hk 0%nat x0 eq_refl) as [-> _]. simpl. ring.
Qed.

(** X18: The inscribed rectangle never reaches beyond the transformed corners
    of wgs_boundaries: its SW corner is not left of nor below LL, its NE
    corner is not right of LR nor above UL.  The transform is assumed to
    give equal images to equal coordinates. *)
Theorem hysea_mesh_corners_within_wgs_boundaries
  (from_crs : string -> string -> Q -> Q -> Q * Q)
  (bounds : Trimesh -> vec3 * vec3) (mesh2d : Trimesh) (inputcrs : string) :
  let sw := (bounds mesh2d).1.1 in
  let ne := (bounds mesh2d).2.1 in
  let T := from_crs inputcrs "epsg:4326"%string in
  let corners := wgs_boundaries from_crs sw ne inputcrs in
  let LL := corners.1.1.1 in
  let UL := corners.1.1.2 in
  let LR := corners.1.2 in
  (forall x x' y y', x == x' -> y == y' ->
     (T x y).1 == (T x' y').1 /\ (T x y).2 == (T x' y').2) ->
  sw.1 < ne.1 ->
  sw.2 < ne.2 ->
  exists xmin ymin xmax ymax,
    hysea_mesh_corners from_crs bounds mesh2d inputcrs
    = Ok ((xmin, ymin), (xmax, ymax))
    /\ LL.1 <= xmin /\ LL.2 <= ymin /\ xmax <= LR.1 /\ ymax <= UL.2.
Proof.
  intros sw ne T corners LL UL LR HT Hx Hy.
  unfold hysea_mesh_corners. fold sw ne.
  rewrite inscribed_corners_unfold. cbv zeta. fold T.
  destruct (np_arange_unit sw.1 ne.1 Hx) as [Hxs _].
  destruct (np_arange_unit sw.2 ne.2 Hy) as [Hys _].
  destruct (np_arange_unit_first sw.1 ne.1 Hx) as (x0 & Hx0 & Ex0).
  destruct (np_arange_unit_first sw.2 ne.2 Hy) as (y0 & Hy0 & Ey0).
  destruct (py_max_spec (map (fun a => (T a sw.2).2) (np_arange sw.1 ne.1 1)))
    as (ymin & -> & _ & Hymin); [now apply map_not_nil|].
  destruct (py_min_spec (map (fun a => (T a ne.2).2) (np_arange sw.1 ne.1 1)))
    as (ymax & -> & _ & Hymax); [now apply map_not_nil|].
  destruct (py_max_spec (map (fun b => (T sw.1 b).1) (np_arange sw.2 ne.2 1)))
    as (xmin & -> & _ & Hxmin); [now apply map_not_nil|].
  destruct (py_min_spec (map (fun b => (T ne.1 b).1) (np_arange sw.2 ne.2 1)))
    as (xmax & -> & _ & Hxmax); [now apply map_not_nil|].
  exists xmin, ymin, xmax, ymax. split; [reflexivity|].
  unfold LL, UL, LR, corners, wgs_boundaries. cbv zeta. cbn [fst snd]. fold T.
  repeat split.
  - destruct (HT sw.1 sw.1 sw.2 y0) as [-> _];
      [reflexivity | now symmetry|].
    apply Hxmin, in_map_iff. now exists y0.
  - destruct (HT sw.1 x0 sw.2 sw.2) as [_ ->];
      [now symmetry | reflexivity|].
    apply Hymin, in_map_iff. now exists x0.
  - destruct (HT ne.1 ne.1 sw.2 y0) as [-> _];
      [reflexivity | now symmetry|].
    apply Hxmax, in_map_iff. now exists y0.
  - destruct (HT sw.1 x0 ne.2 ne.2) as [_ ->];
      [now symmetry | reflexivity|].
    apply Hymax, in_map_iff. now exists x0.
Qed.

Lemma hysea_mesh_corners_within_wgs_boundaries_witness :
  exists xmin ymin xmax ymax,
    hysea_mesh_corners shear box_2_1 two_triangles "utm"
    = Ok ((xmin, ymin), (xmax, ymax))
    /\ (shear "utm" "epsg:4326" 0 0).1 <= xmin
    /\ (shear "utm" "epsg:4326" 0 0).2 <= ymin
    /\ xmax <= (shear "utm" "epsg:4326" 2 0).1
    /\ ymax <= (shear "utm" "epsg:4326" 0 1).2.
Proof.
  apply (hysea_mesh_corners_within_wgs_boundaries shear box_2_1 two_triangles
           "utm").
  - intros x x' y y' Hx Hy. unfold shear. cbn [fst snd].
    split; rewrite Hx, Hy; reflexivity.
  - reflexivity.
  - reflexivity.
Defined.

(** ** generate_grd and generate_bathymetry *)

Lemma grid_of_values {A} (c r : nat) (vals : list A) :
  length vals = (c * r)%nat ->
  let grid := transpose r (rows_of c r vals) in
  length grid = r
  /\ forall row, (row < r)%nat ->
       exists line, grid !! row = Some line
         /\ length line = c
         /\ forall col, (col < c)%nat ->
              line !! col = vals !! (col * r + row)%nat.
Proof.
  intros Hlen grid. split.
  - unfold grid, transpose. now rewrite length_map, length_seq.
  - intros row Hrow. eexists. split; [apply transpose_lookup, Hrow|].
    split; [now apply column_of_rows_length|].
    intros col Hcol. now apply column_of_rows.
Qed.

Lemma product_nil_r {A B} (x : list A) : product x (@nil B) = [].
Proof. unfold product. induction x as [|a x IH]; [reflexivity | exact IH]. Qed.

Lemma sample_axes_unfold
  (ray_first : Trimesh -> vec3 -> Z) (mesh2d : Trimesh)
  (nodes_values : list Q) (x y : list Q) (grid : list (list Np.float)) :
  sample_axes ray_first mesh2d nodes_values x y = Ok grid ->
  product x y <> []
  /\ exists vals,
       for_each (value_of_point ray_first mesh2d nodes_values)
                (map (fun p : Q * Q => (p.1, p.2, - (1))) (product x y))
       = Ok vals
       /\ length vals = (length x * length y)%nat
       /\ grid = transpose (length y) (rows_of (length x) (length y) vals).
Proof.
  intros H.
  assert (Hne : product x y <> []).
  { intros E. unfold sample_axes in H. rewrite E in H. discriminate. }
  split; [exact Hne|].
  rewrite (sample_axes_points _ _ _ _ _ Hne) in H. cbv zeta in H.
  rewrite interpolate_pointCloud_spec in H. cbn [out_values] in H.
  destruct (for_each _ _) as [vals|] eqn:E; [|discriminate].
  cbn [Py.bind] in H.
  pose proof (for_each_lookup _ _ _ E) as [Hlen _].
  rewrite length_map, product_length in Hlen.
  unfold reshape in H. rewrite (proj2 (Nat.eqb_eq _ _) Hlen) in H.
  cbn [Py.bind] in H. injection H as <-.
  exists vals. now repeat split.
Qed.

Lemma grid_entries
  (ray_first : Trimesh -> vec3 -> Z) (mesh2d : Trimesh)
  (nodes_values : list Q) (x y : list Q) (vals : list Np.float) :
  for_each (value_of_point ray_first mesh2d nodes_values)
           (map (fun p : Q * Q => (p.1, p.2, - (1))) (product x y))
  = Ok vals ->
  length vals = (length x * length y)%nat ->
  let z := transpose (length y) (rows_of (length x) (length y) vals) in
  length z = length y
  /\ forall row col xc yr, x !! col = Some xc -> y !! row = Some yr ->
       exists line val,
         z !! row = Some line
         /\ length line = length x
         /\ line !! col = Some val
         /\ value_of_point ray_first mesh2d nodes_values (xc, yr, - (1))
            = Ok val.
Proof.
  intros Ev Hlen z.
  destruct (grid_of_values _ _ vals Hlen) as [Hg Hrows].
  split; [exact Hg|]. intros row col xc yr Hxc Hyr.
  pose proof (lookup_lt_Some _ _ _ Hxc) as Hcol.
  pose proof (lookup_lt_Some _ _ _ Hyr) as Hrow.
  destruct (Hrows row Hrow) as (line & Hline & Hl & Hcols).
  pose proof (product_lookup _ _ col row xc yr Hxc Hyr) as Hp.
  apply for_each_lookup in Ev. destruct Ev as [_ Ev].
  destruct (Ev (col * length y + row)%nat (xc, yr, - (1)))
    as (val & Hval & Eval').
  { change (map ?f ?l) with (f <$> l). now rewrite list_lookup_fmap, Hp. }
  exists line, val. split; [exact Hline|]. split; [exact Hl|].
  split; [now rewrite Hcols | exact Eval'].
Qed.

(** X19: When generate_grd returns, with nonzero resolutions, neither axis
    is empty, the array has one line per entry of y and one entry per
    entry of x in each line, the axis entries are sw.x + col * xres and
    sw.y + row * yres, and the entry [row][col] of the array is the value
    interpolated at the point (x[col], y[row]). *)
Theorem generate_grd_entries
  (ray_first : Trimesh -> vec3 -> Z) (mesh2d : Trimesh)
  (nodes_values : list Q) (xres yres : Q) (sw ne : vec2)
  (x y : list Q) (z : list (list Np.float)) :
  ~ xres == 0 -> ~ yres == 0 ->
  generate_grd ray_first mesh2d nodes_values xres yres sw ne = Ok (x, y, z) ->
  x <> [] /\ y <> []
  /\ length z = length y
  /\ forall row col xc yr, x !! col = Some xc -> y !! row = Some yr ->
       xc = sw.1 + inject_Z (Z.of_nat col) * xres
       /\ yr = sw.2 + inject_Z (Z.of_nat row) * yres
       /\ exists line val,
            z !! row = Some line
            /\ length line = length x
            /\ line !! col = Some val
            /\ value_of_point ray_first mesh2d nodes_values (xc, yr, - (1))
               = Ok val.
Proof.
  intros _ _. unfold generate_grd. cbv zeta.
  destruct (sample_axes _ _ _ _ _) as [grid|] eqn:E; [|discriminate].
  cbn [Py.bind]. intros [= <- <- <-].
  destruct (sample_axes_unfold _ _ _ _ _ _ E) as (Hne & vals & Ev & Hlen & ->).
  destruct (grid_entries _ _ _ _ _ vals Ev Hlen) as [Hg Hent].
  split; [intros E0; apply Hne; now rewrite E0|].
  split.
  { intros E0. apply Hne. rewrite E0. apply product_nil_r. }
  split; [exact Hg|]. intros row col xc yr Hxc Hyr.
  split; [now apply np_arange_lookup in Hxc|].
  split; [now apply np_arange_lookup in Hyr|].
  now apply Hent.
Qed.

(** A grid of 2 by 2 nodes on [two_triangles] with node values
    0, 0, 0, 10: the entry of row 1, column 0 is the value at (0, 1/2),
    which is 5, and the entry of row 0, column 1 is the value at (1, 0),
    which is 0. *)
Lemma generate_grd_entries_witness :
  exists x y z line1 line0 val10 val01,
    generate_grd scan_ray_first two_triangles corner_values 1 (1 # 2)
                 (0, 0) (2, 1)
    = Ok (x, y, z)
    /\ length x = 2%nat /\ length y = 2%nat
    /\ z !! 1%nat = Some line1 /\ line1 !! 0%nat = Some val10
    /\ val10 =f= Np.Fin 5
    /\ z !! 0%nat = Some line0 /\ line0 !! 1%nat = Some val01
    /\ val01 =f= Np.Fin 0.
Proof.
  destruct (generate_grd scan_ray_first two_triangles corner_values 1 (1 # 2)
              (0, 0) (2, 1)) as [[[x y] z]|e] eqn:E;
    [|vm_compute in E; discriminate].
  destruct (generate_grd_entries scan_ray_first two_triangles corner_values
              1 (1 # 2) (0, 0) (2, 1) x y z) as (_ & _ & _ & H);
    [discriminate | discriminate | exact E |].
  assert (Ex : x = np_arange 0 2 1 /\ y = np_arange 0 1 (1 # 2)).
  { unfold generate_grd in E. cbv zeta in E.
    destruct (sample_axes _ _ _ _ _); [|discriminate].
    cbn [Py.bind fst snd] in E. injection E as <- <- _. now split. }
  destruct Ex as [-> ->].
  destruct (H 1%nat 0%nat _ _ eq_refl eq_refl)
    as (_ & _ & line1 & val10 & Hl1 & _ & Hc1 & Hv1).
  destruct (H 0%nat 1%nat _ _ eq_refl eq_refl)
    as (_ & _ & line0 & val01 & Hl0 & _ & Hc0 & Hv0).
  exists (np_arange 0 2 1), (np_arange 0 1 (1 # 2)), z, line1, line0,
         val10, val01.
  split; [reflexivity|]. split; [reflexivity|]. split; [reflexivity|].
  split; [exact Hl1|]. split; [exact Hc1|].
  split; [vm_compute in Hv1; injection Hv1 as <-; vm_compute; reflexivity|].
  split; [exact Hl0|]. split; [exact Hc0|].
  vm_compute in Hv0. injection Hv0 as <-. vm_compute. reflexivity.
Defined.




